(** * Book3d: page-turn kinematics and the page cursor of [src/book/src/main.js]

    A shallow embedding of the parts of [main.js] that carry the book's
    behaviour: the cursor state machine ([setPage], [updateDelayedPage],
    [updateUI]), the per-page object built by [createPage] with its [update],
    pointer and click handlers, and the frame loop [animate].

    Conventions of the embedding:
    - JavaScript numbers that only ever hold integers (page indices, the two
      cursors, [Date.now()] readings, timer delays) are [Z];
    - numbers that go through [Math.sin], [Math.cos], [Math.PI] or the easing
      arithmetic are real numbers [R]: [Math.sin], [Math.cos] and [Math.PI]
      are read as the mathematical [sin], [cos] and [PI], so rounding of
      IEEE doubles is outside the model;
    - the module-level variables are fields of explicit records that every
      function takes and returns;
    - [setTimeout]/[clearTimeout] on the single handle [animationTimeout] is
      the field [animationTimeout : option Z], the delay of the pending
      callback if there is one. *)

From Stdlib Require Import ZArith Reals Lra Lia.
From stdpp Require Import list strings pretty.

Open Scope Z_scope.

(** ** Constants (lines 7-19) *)

Definition PAGE_DEPTH : R := 3 / 1000.
Definition PAGE_SEGMENTS : nat := 30.

Definition EASING_FACTOR : R := 5 / 10.
Definition EASING_FACTOR_FOLD : R := 3 / 10.
Definition INSIDE_CURVE_STRENGTH : R := 18 / 100.
Definition OUTSIDE_CURVE_STRENGTH : R := 5 / 100.
Definition TURNING_CURVE_STRENGTH : R := 9 / 100.

(** ** Book content (lines 22-88) *)

Record PageData := { front : string; back : string; content : string }.

Definition pages : list PageData :=
  [ {| front := "cover"; back := "page1";
       content := "This is the cover of our amazing book." |};
    {| front := "page1"; back := "page2";
       content := "Once upon a time in a land far away, there lived a curious explorer who loved to discover new places." |};
    {| front := "page2"; back := "page3";
       content := "The explorer had a magical map that would reveal hidden treasures and mysterious locations." |};
    {| front := "page3"; back := "page4";
       content := "One day, while studying the map, a strange symbol appeared that the explorer had never seen before." |};
    {| front := "page4"; back := "page5";
       content := "The symbol led to an ancient library filled with books containing the knowledge of forgotten civilizations." |};
    {| front := "page5"; back := "page6";
       content := "In the library, the explorer found a book just like this one, which told stories of other explorers." |};
    {| front := "page6"; back := "page7";
       content := "Each explorer had discovered something unique that changed the world in some small but significant way." |};
    {| front := "page7"; back := "page8";
       content := "The book revealed that the greatest treasures were not gold or jewels, but knowledge and understanding." |};
    {| front := "page8"; back := "page9";
       content := "Inspired by these stories, our explorer decided to share all discoveries with the world." |};
    {| front := "page9"; back := "page10";
       content := "And so began a new journey of sharing knowledge and inspiring future generations of explorers." |};
    {| front := "page10"; back := "page11";
       content := "The explorer created schools and libraries where people could learn about the wonders of the world." |};
    {| front := "page11"; back := "page12";
       content := "Students from all over came to learn, and many became explorers themselves, continuing the cycle." |};
    {| front := "page12"; back := "backcover";
       content := "And that is how a single discovery can change the world. The End." |} ].

(** [pages.length] of the shipped book. *)
Definition pages_length : Z := Eval cbv in Z.of_nat (length pages).

(** ** The page cursor (lines 90-95, 511-560)

    [Cursor] gathers the module-level variables [currentPage], [delayedPage]
    and [animationTimeout] together with the three DOM properties written by
    [updateUI]. Every function is parameterised by [N], the value of
    [pages.length]. *)

Record Ui := mkUi {
  pageCounter : string;      (* pageCounter.textContent *)
  prevBtn_disabled : bool;   (* prevBtn.disabled *)
  nextBtn_disabled : bool    (* nextBtn.disabled *)
}.

Record Cursor := mkCursor {
  currentPage : Z;
  delayedPage : Z;
  animationTimeout : option Z;
  ui : Ui
}.

Definition set_currentPage (v : Z) (s : Cursor) : Cursor :=
  mkCursor v (delayedPage s) (animationTimeout s) (ui s).
Definition set_delayedPage (v : Z) (s : Cursor) : Cursor :=
  mkCursor (currentPage s) v (animationTimeout s) (ui s).
Definition set_animationTimeout (v : option Z) (s : Cursor) : Cursor :=
  mkCursor (currentPage s) (delayedPage s) v (ui s).
Definition set_ui (v : Ui) (s : Cursor) : Cursor :=
  mkCursor (currentPage s) (delayedPage s) (animationTimeout s) v.

Section Book.
(** [N] stands for [pages.length]. *)
Variable N : Z.

(** [updateUI] (lines 556-560). *)
Definition updateUI (s : Cursor) : Cursor :=
  set_ui {| pageCounter := "Page " +:+ pretty (currentPage s) +:+ " of " +:+ pretty (N - 1);
            prevBtn_disabled := currentPage s <=? 0;
            nextBtn_disabled := currentPage s >=? N - 1 |} s.

(** The [delay] constant of [goToPage] (line 537), computed from the two
    cursors as they are before [delayedPage] moves. *)
Definition stepDelay (s : Cursor) : Z :=
  if Z.abs (currentPage s - delayedPage s) >? 2 then 50 else 150.

(** The closure [goToPage] of [updateDelayedPage] (lines 532-550). *)
Definition goToPage (s : Cursor) : Cursor :=
  if currentPage s =? delayedPage s then s
  else
    let delay := stepDelay s in
    let s1 :=
      if currentPage s >? delayedPage s then set_delayedPage (delayedPage s + 1) s
      else if currentPage s <? delayedPage s then set_delayedPage (delayedPage s - 1) s
      else s in
    let s2 := updateUI s1 in
    if negb (currentPage s2 =? delayedPage s2)
    then set_animationTimeout (Some delay) s2
    else s2.

(** [updateDelayedPage] (lines 529-553): cancel the pending callback, then
    call [goToPage] at once. *)
Definition updateDelayedPage (s : Cursor) : Cursor :=
  goToPage (set_animationTimeout None s).

(** [Math.max(0, Math.min(pages.length - 1, page))] (line 513). *)
Definition clampPage (page : Z) : Z := Z.max 0 (Z.min (N - 1) page).

(** [setPage] (lines 512-516). *)
Definition setPage (page : Z) (s : Cursor) : Cursor :=
  updateUI (updateDelayedPage (set_currentPage (clampPage page) s)).

(** [previousPage] and [nextPage] (lines 519-526). *)
Definition previousPage (s : Cursor) : Cursor := setPage (currentPage s - 1) s.
Definition nextPage (s : Cursor) : Cursor := setPage (currentPage s + 1) s.

(** The pending [setTimeout] callback expires: the handle is spent and
    [goToPage] runs. With no pending callback nothing happens. *)
Definition fire (s : Cursor) : Cursor :=
  match animationTimeout s with
  | Some _ => goToPage (set_animationTimeout None s)
  | None => s
  end.

(** The event loop left alone: the states after each expiry of the pending
    callback, until none is pending. *)
Fixpoint run (fuel : nat) (s : Cursor) : list Cursor :=
  match fuel with
  | O => []
  | S k =>
      match animationTimeout s with
      | None => []
      | Some _ => fire s :: run k (fire s)
      end
  end.

(** The cursor once [init] has run (lines 91-95 and 181). *)
Definition initCursor : Cursor :=
  updateUI (mkCursor 0 0 None (mkUi EmptyString false false)).

End Book.

(** ** three.js helpers used by the page object

    [THREE.MathUtils.lerp] and [THREE.MathUtils.degToRad] belong to the
    rendering library; they are written here as three.js defines them. *)

Module MathUtils.
Definition lerp (x y t : R) : R := ((1 - t) * x + t * y)%R.
Definition degToRad (degrees : R) : R := (degrees * (PI / 180))%R.
End MathUtils.

(** ** The page object of [createPage] (lines 300-476) *)

(** The two Euler angles of a bone that [update] writes. *)
Record Bone := mkBone {
  rotation_y : R;   (* bone.rotation.y *)
  rotation_x : R    (* bone.rotation.x *)
}.

Record PageObject := mkPageObject {
  index : Z;
  bones : list Bone;             (* skeleton.bones *)
  emissiveIntensity4 : R;        (* mesh.material[4].emissiveIntensity *)
  emissiveIntensity5 : R;        (* mesh.material[5].emissiveIntensity *)
  position_z : R;                (* mesh.position.z *)
  highlighted : bool;
  turnedAt : Z;
  lastOpened : bool
}.

(** The bone loop of [createPage] (lines 317-332): one fresh bone for each
    [i] from [0] to [PAGE_SEGMENTS] inclusive. *)
Definition createBones : list Bone :=
  (fun _ : nat => mkBone 0 0) <$> seq 0 (S PAGE_SEGMENTS).

Definition createPage (index : Z) (pageData : PageData) : PageObject :=
  {| index := index;
     bones := createBones;
     emissiveIntensity4 := 0;
     emissiveIntensity5 := 0;
     position_z := 0;
     highlighted := false;
     turnedAt := 0;
     lastOpened := false |}.

Definition setHighlighted (value : bool) (p : PageObject) : PageObject :=
  mkPageObject (index p) (bones p) (emissiveIntensity4 p) (emissiveIntensity5 p)
               (position_z p) value (turnedAt p) (lastOpened p).

Section Update.
Open Scope R_scope.

(** Lines 408-409, with [now] the reading of [Date.now()] on line 408. *)
Definition turningTime (now turnedAt : Z) : R :=
  let turningTime := Rmin 400 (IZR (now - turnedAt)) / 400 in
  sin (turningTime * PI).

(** Lines 411-414. *)
Definition targetRotation (opened bookClosed : bool) (index : Z) : R :=
  let targetRotation := if opened then - PI / 2 else PI / 2 in
  if negb bookClosed
  then targetRotation + MathUtils.degToRad (IZR index * (8 / 10))
  else targetRotation.

(** Lines 420-422; [len] is [bones.length]. *)
Definition insideCurveIntensity (i : nat) : R :=
  if (i <? 8)%nat then sin (INR i * (2 / 10) + 25 / 100) else 0.
Definition outsideCurveIntensity (i : nat) : R :=
  if (8 <=? i)%nat then cos (INR i * (3 / 10) + 9 / 100) else 0.
Definition turningIntensity (len i : nat) (turningTime : R) : R :=
  sin (INR i * PI * (1 / INR len)) * turningTime.

(** The initial value of [rotationAngle] (lines 424-427). *)
Definition curveRotationAngle (len i : nat) (turningTime targetRotation : R) : R :=
  INSIDE_CURVE_STRENGTH * insideCurveIntensity i * targetRotation
  - OUTSIDE_CURVE_STRENGTH * outsideCurveIntensity i * targetRotation
  + TURNING_CURVE_STRENGTH * turningIntensity len i turningTime * targetRotation.

(** Line 446. *)
Definition foldIntensity (len i : nat) (turningTime : R) : R :=
  if (8 <? i)%nat then sin (INR i * PI * (1 / INR len) - 5 / 10) * turningTime else 0.

(** The pair [(targetRotationY, targetRotationX)] that one pass of the
    loop body eases bone [i] towards (lines 420-450). *)
Definition boneTargets (len i : nat) (turningTime targetRotation : R)
           (bookClosed : bool) : R * R :=
  let rotationAngle := curveRotationAngle len i turningTime targetRotation in
  let foldRotationAngle := MathUtils.degToRad (sin targetRotation * 2) in
  let '(rotationAngle, foldRotationAngle) :=
    if bookClosed then
      if (i =? 0)%nat then (targetRotation, 0) else (0, 0)
    else (rotationAngle, foldRotationAngle) in
  let targetRotationY := rotationAngle in
  let targetRotationX := foldRotationAngle * foldIntensity len i turningTime in
  (targetRotationY, targetRotationX).

(** The two easing assignments (lines 442-451). *)
Definition easeBone (delta : R) (targets : R * R) (bone : Bone) : Bone :=
  {| rotation_y := rotation_y bone
                   + (fst targets - rotation_y bone) * EASING_FACTOR * delta;
     rotation_x := rotation_x bone
                   + (snd targets - rotation_x bone) * EASING_FACTOR_FOLD * delta |}.

(** [update] (lines 388-456). [nowT] is the reading of [Date.now()] on
    line 404 (used only on an open/close transition) and [now] the one on
    line 408. *)
Definition update (nowT now : Z) (delta : R) (page : Z) (opened bookClosed : bool)
           (p : PageObject) : PageObject :=
  let emissiveIntensity := if highlighted p then 22 / 100 else 0 in
  let e4 := MathUtils.lerp (emissiveIntensity4 p) emissiveIntensity (1 / 10) in
  let e5 := MathUtils.lerp (emissiveIntensity5 p) emissiveIntensity (1 / 10) in
  let '(turnedAt', lastOpened') :=
    if negb (eqb (lastOpened p) opened) then (nowT, opened)
    else (turnedAt p, lastOpened p) in
  let turningTime := turningTime now turnedAt' in
  let targetRotation := targetRotation opened bookClosed (index p) in
  let len := length (bones p) in
  let bones' :=
    imap (fun i bone =>
            easeBone delta (boneTargets len i turningTime targetRotation bookClosed) bone)
         (bones p) in
  {| index := index p;
     bones := bones';
     emissiveIntensity4 := e4;
     emissiveIntensity5 := e5;
     position_z := - IZR (index p) * PAGE_DEPTH + IZR page * PAGE_DEPTH;
     highlighted := highlighted p;
     turnedAt := turnedAt';
     lastOpened := lastOpened' |}.

End Update.

(** ** The session: cursor, page objects and hover state (lines 90-98) *)

Record Session := mkSession {
  cursor : Cursor;
  pageObjects : list PageObject;
  hoveredObject : option nat;   (* position in [pageObjects] of the hovered page *)
  body_cursor : string          (* document.body.style.cursor *)
}.

Section Handlers.
Variable N : Z.

(** [onPointerEnter] and [onPointerLeave] of the page at position [k]
    (lines 458-466). *)
Definition onPointerEnter (k : nat) (s : Session) : Session :=
  mkSession (cursor s) (alter (setHighlighted true) k (pageObjects s))
            (hoveredObject s) "pointer".
Definition onPointerLeave (k : nat) (s : Session) : Session :=
  mkSession (cursor s) (alter (setHighlighted false) k (pageObjects s))
            (hoveredObject s) "default".

(** The argument that a page's click handler passes to [setPage]
    (line 469). *)
Definition newPage (p : PageObject) : Z :=
  if lastOpened p then index p else index p + 1.

(** [onClick] of the page at position [k] (lines 468-472). *)
Definition page_onClick (k : nat) (s : Session) : Session :=
  match pageObjects s !! k with
  | Some p =>
      mkSession (setPage N (newPage p) (cursor s))
                (alter (setHighlighted false) k (pageObjects s))
                (hoveredObject s) (body_cursor s)
  | None => s
  end.

(** The canvas click listener (lines 577-581). *)
Definition onClick (s : Session) : Session :=
  match hoveredObject s with
  | Some k => page_onClick k s
  | None => s
  end.

(** [checkIntersection] (lines 584-614). [pick] is the page index parsed
    from the name of the first mesh the ray meets, if it meets one. *)
Definition checkIntersection (pick : option Z) (s : Session) : Session :=
  let intersectedPage :=
    match pick with
    | Some pageIndex =>
        fst <$> list_find (fun p => index p = pageIndex) (pageObjects s)
    | None => None
    end in
  if decide (hoveredObject s = intersectedPage) then s
  else
    let s1 := match hoveredObject s with
              | Some k => onPointerLeave k s
              | None => s
              end in
    let s2 := mkSession (cursor s1) (pageObjects s1) intersectedPage (body_cursor s1) in
    match hoveredObject s2 with
    | Some k => onPointerEnter k s2
    | None => s2
    end.

(** One pass of [animate] (lines 479-502). [clock k] gives the two
    [Date.now()] readings of the [update] of the page at position [k]. *)
Definition animate (delta : R) (clock : nat → Z * Z) (pick : option Z)
           (s : Session) : Session :=
  let d := delayedPage (cursor s) in
  let pageObjects' :=
    imap (fun k page =>
            update (fst (clock k)) (snd (clock k)) delta d
                   (bool_decide (d > index page))
                   (bool_decide (d = 0) || bool_decide (d = N)) page)
         (pageObjects s) in
  checkIntersection pick
    (mkSession (cursor s) pageObjects' (hoveredObject s) (body_cursor s)).

(** What can happen to a session after [init]. *)
Inductive Op :=
| OpAnimate (delta : R) (clock : nat → Z * Z) (pick : option Z)  (* a frame *)
| OpClick                                                        (* canvas click *)
| OpPrev                                                         (* prev button *)
| OpNext                                                         (* next button *)
| OpTimeout.                                                     (* pending callback expires *)

Definition on_cursor (f : Cursor → Cursor) (s : Session) : Session :=
  mkSession (f (cursor s)) (pageObjects s) (hoveredObject s) (body_cursor s).

Definition step (s : Session) (o : Op) : Session :=
  match o with
  | OpAnimate delta clock pick => animate delta clock pick s
  | OpClick => onClick s
  | OpPrev => on_cursor (previousPage N) s
  | OpNext => on_cursor (nextPage N) s
  | OpTimeout => on_cursor (fire N) s
  end.

Definition steps (s : Session) (ops : list Op) : Session := foldl step s ops.

End Handlers.

(** The session that [init] builds for a book [pgs] (lines 155-160, 181). *)
Definition initSession (pgs : list PageData) : Session :=
  {| cursor := initCursor (Z.of_nat (length pgs));
     pageObjects := imap (fun index pageData => createPage (Z.of_nat index) pageData) pgs;
     hoveredObject := None;
     body_cursor := EmptyString |}.

(** ** Predicates and reference formulas used in the statements *)

(** A cursor is well formed when a callback is pending exactly while the
    two cursors differ. *)
Definition pending_iff_behind (s : Cursor) : Prop :=
  animationTimeout s = None ↔ currentPage s = delayedPage s.

(** Number of steps that separate the two cursors. *)
Definition gap (s : Cursor) : nat :=
  Z.to_nat (Z.abs (currentPage s - delayedPage s)).

(** The cursor stays inside a book of [N] pages. *)
Definition cursor_in_book (N : Z) (c : Cursor) : Prop :=
  0 ≤ currentPage c ≤ N - 1 ∧ 0 ≤ delayedPage c ≤ N - 1.

(** Every page keeps the bone chain it was created with. *)
Definition bones_intact (ps : list PageObject) : Prop :=
  Forall (λ p, length (bones p) = S PAGE_SEGMENTS) ps.

(** Scenario A of the specification: [setPage(5)] on the freshly
    initialised 13-page book. *)
Definition scenario_A : Cursor := setPage pages_length 5 (initCursor pages_length).

(** The page object that [createPage] returns for index [k]; none of the
    fields kept in [PageObject] depends on the page data. *)
Definition fresh_page (k : Z) : PageObject :=
  createPage k {| front := "page"; back := "page"; content := "text" |}.

(** The shipped book after its first frame, during which the ray meets the
    mesh named [page_2]: the pointer rests on a page that is not opened. *)
Definition hovering_page2 : Session :=
  animate pages_length (1 / 60) (λ _, (1000, 1000)) (Some 2) (initSession pages).

(** The envelope as the specification words it, with a clamp at both
    ends. *)
Definition spec_clamp (x lo hi : R) : R := Rmax lo (Rmin hi x).
Definition spec_turningTime (now turnedAt : Z) : R :=
  sin (PI * spec_clamp (IZR (now - turnedAt) / 400) 0 1).

(** The formula of the specification for the Y-rotation target. *)
Definition spec_rotationAngleY (boneCount i : nat) (turningTime targetRotation : R) : R :=
  let insideCurve := if (i <? 8)%nat then sin (2 / 10 * INR i + 25 / 100) else 0%R in
  let outsideCurve := if (8 <=? i)%nat then cos (3 / 10 * INR i + 9 / 100) else 0%R in
  let turningCurve := (sin (INR i * PI / INR boneCount) * turningTime)%R in
  (18 / 100 * insideCurve * targetRotation
   - 5 / 100 * outsideCurve * targetRotation
   + 9 / 100 * turningCurve * targetRotation)%R.

(** ** Skinning of the page geometry ([createPageGeometry], lines 185-219) *)

Definition PAGE_WIDTH : R := 128 / 100.
Definition SEGMENT_WIDTH : R := PAGE_WIDTH / INR PAGE_SEGMENTS.

(** [Math.floor] and the remainder operator [%] of JavaScript numbers, read
    over the reals: [x % y] is [x - y * trunc (x / y)], with the sign of the
    dividend. *)
Module Js.
Definition floor (x : R) : Z := Int_part x.
Definition trunc (x : R) : Z :=
  if Rlt_dec x 0 then - Int_part (- x) else Int_part x.
Definition rem (x y : R) : R := (x - y * IZR (trunc (x / y)))%R.
End Js.

(** Lines 206-207, for a vertex of abscissa [x]. *)
Definition skinIndex (x : R) : Z :=
  Z.max 0 (Z.min (Z.of_nat PAGE_SEGMENTS - 1) (Js.floor (x / SEGMENT_WIDTH))).
Definition skinWeight (x : R) : R :=
  (Js.rem x SEGMENT_WIDTH / SEGMENT_WIDTH)%R.

(** The loop over the vertices (lines 199-212): the two arrays
    [skinIndices] and [skinWeights], four entries pushed per vertex. *)
Definition pushSkin (acc : list Z * list R) (x : R) : list Z * list R :=
  (fst acc ++ [skinIndex x; Z.min (skinIndex x + 1) (Z.of_nat PAGE_SEGMENTS); 0; 0],
   snd acc ++ [(1 - skinWeight x)%R; skinWeight x; 0%R; 0%R]).
Definition skinAttributes (xs : list R) : list Z * list R :=
  foldl pushSkin ([], []) xs.

(** ** Text wrapping of [generatePageTexture] (lines 261-279) *)

Section Texture.
(** [measureText s] stands for [ctx.measureText(s).width] under the font set
    on line 257. *)
Variable measureText : string → R.

Definition canvas_width : R := 1024.

(** The loop of lines 267-278 from index [i] on, with the current values of
    [line] and [lines], followed by the final [lines.push(line)]. *)
Fixpoint wrapLoop (i : nat) (words : list string) (line : string)
         (lines : list string) : list string :=
  match words with
  | [] => lines ++ [line]
  | w :: ws =>
      let testLine := (line +:+ w) +:+ " " in
      let testWidth := measureText testLine in
      if Rgt_dec testWidth (canvas_width - 100) then
        if (0 <? i)%nat
        then wrapLoop (S i) ws (w +:+ " ") (lines ++ [line])
        else wrapLoop (S i) ws testLine lines
      else wrapLoop (S i) ws testLine lines
  end.

(** [lines] once the text, split into [words], has been wrapped. *)
Definition wrapText (words : list string) : list string :=
  wrapLoop 0 words EmptyString [].

End Texture.

(** A line is acceptable when it is no wider than the limit of line 272
    or consists of a single word of [all] and its trailing space. *)
Definition line_ok (measureText : string → R) (all : list string) (l : string) : Prop :=
  (measureText l <= canvas_width - 100)%R ∨ ∃ w, w ∈ all ∧ l = w +:+ " ".

(** The strings of a list written one after another. *)
Definition joined (ls : list string) : string := foldr String.append EmptyString ls.

(** ** Pointer position ([onMouseMove], lines 569-574) *)

Record DOMRect := mkDOMRect {
  rect_left : R;
  rect_top : R;
  rect_width : R;
  rect_height : R
}.

(** The pair [(mouse.x, mouse.y)] written by [onMouseMove]. *)
Definition onMouseMove (clientX clientY : R) (rect : DOMRect) : R * R :=
  (((clientX - rect_left rect) / rect_width rect) * 2 - 1,
   - ((clientY - rect_top rect) / rect_height rect) * 2 + 1)%R.

(** ** Runs of frames and further predicates *)

(** [n] calls of [update] on one page with the same arguments, frame [k]
    reading the clock values [clock k]. *)
Fixpoint update_frames (n : nat) (clock : nat → Z * Z) (delta : R) (page : Z)
         (opened bookClosed : bool) (p : PageObject) : PageObject :=
  match n with
  | O => p
  | S k =>
      update (fst (clock k)) (snd (clock k)) delta page opened bookClosed
             (update_frames k clock delta page opened bookClosed p)
  end.

(** The page at position [k] of the array carries index [k]. *)
Definition indexed (ps : list PageObject) : Prop :=
  ∀ k p, ps !! k = Some p → index p = Z.of_nat k.

(** The hover state agrees with the pages: the hovered position exists, only
    the hovered page can be highlighted, and the mouse cursor is the pointing
    hand exactly while a page is hovered. *)
Definition hover_consistent (s : Session) : Prop :=
  (∀ k, hoveredObject s = Some k → (k < length (pageObjects s))%nat)
  ∧ (∀ j p, pageObjects s !! j = Some p → highlighted p = true → hoveredObject s = Some j)
  ∧ (is_Some (hoveredObject s) ↔ body_cursor s = "pointer").

(** The page that [checkIntersection] resolves the pick to (lines 595-600). *)
Definition intersectedPage (pick : option Z) (ps : list PageObject) : option nat :=
  match pick with
  | Some pageIndex => fst <$> list_find (λ p, index p = pageIndex) ps
  | None => None
  end.

(** [setHighlighted v] on the page at the position [o], if there is one. *)
Definition hover_alter (v : bool) (o : option nat) (ps : list PageObject) :
  list PageObject :=
  match o with
  | Some k => alter (setHighlighted v) k ps
  | None => ps
  end.

(** Both faces glow alike, between off and the highlight level. *)
Definition glow_in_range (p : PageObject) : Prop :=
  emissiveIntensity4 p = emissiveIntensity5 p
  ∧ (0 <= emissiveIntensity4 p <= 22 / 100)%R.

(** The three DOM properties are the ones [updateUI] would write now. *)
Definition ui_in_sync (N : Z) (c : Cursor) : Prop := ui c = ui (updateUI N c).

(** A pending callback carries the delay chosen one step further away. *)
Definition delay_ok (c : Cursor) : Prop :=
  ∀ t, animationTimeout c = Some t →
       t = if Z.abs (currentPage c - delayedPage c) + 1 >? 2 then 50 else 150.

(** The three cursor invariants together. *)
Definition cursor_ok (N : Z) (c : Cursor) : Prop :=
  ui_in_sync N c ∧ pending_iff_behind c ∧ delay_ok c.

(** Sum of the delays of the callbacks pending in a list of states. *)
Definition waits (sts : list Cursor) : Z :=
  foldr (λ (c : Cursor) (acc : Z), default 0 (animationTimeout c) + acc) 0 sts.

(** * Properties *)

(** ** The cursor state machine *)

(** Turns the boolean integer tests of the embedding into propositions. *)
Ltac zbool :=
  rewrite ?Z.gtb_ltb, ?Z.geb_leb in *;
  repeat match goal with
    | |- context [Z.eqb ?a ?b] => destruct (Z.eqb_spec a b)
    | |- context [Z.ltb ?a ?b] => destruct (Z.ltb_spec a b)
    | |- context [Z.leb ?a ?b] => destruct (Z.leb_spec a b)
    end.

Section CursorFacts.
Variable N : Z.

Lemma goToPage_currentPage s : currentPage (goToPage N s) = currentPage s.
Proof. unfold goToPage, stepDelay; simpl. zbool; simpl in *; try done; lia. Qed.

(** One call of [goToPage] moves [delayedPage] by the sign of the gap. *)
Lemma goToPage_delayedPage s :
  delayedPage (goToPage N s)
  = delayedPage s + Z.sgn (currentPage s - delayedPage s).
Proof. unfold goToPage, stepDelay; simpl. zbool; simpl in *; lia. Qed.

(** After [goToPage] on a state with no pending callback, one is pending
    exactly when the target is not reached yet, with the delay chosen
    from the gap before the move. *)
Lemma goToPage_animationTimeout s :
  animationTimeout s = None →
  animationTimeout (goToPage N s)
  = if currentPage s =? delayedPage (goToPage N s) then None
    else Some (stepDelay s).
Proof.
  intros Hnone. unfold goToPage, stepDelay; simpl.
  zbool; simpl in *; try done; lia.
Qed.

Lemma setPage_currentPage p s : currentPage (setPage N p s) = clampPage N p.
Proof. unfold setPage, updateDelayedPage. simpl. by rewrite goToPage_currentPage. Qed.

Lemma setPage_delayedPage p s :
  delayedPage (setPage N p s)
  = delayedPage s + Z.sgn (clampPage N p - delayedPage s).
Proof. unfold setPage, updateDelayedPage. simpl. by rewrite goToPage_delayedPage. Qed.

Lemma setPage_animationTimeout p s :
  animationTimeout (setPage N p s)
  = if clampPage N p =? delayedPage (setPage N p s) then None
    else Some (stepDelay (set_currentPage (clampPage N p) s)).
Proof.
  unfold setPage, updateDelayedPage. simpl.
  by rewrite goToPage_animationTimeout.
Qed.

Lemma setPage_ui p s :
  ui (setPage N p s)
  = {| pageCounter := "Page " +:+ pretty (clampPage N p) +:+ " of " +:+ pretty (N - 1);
       prevBtn_disabled := clampPage N p <=? 0;
       nextBtn_disabled := clampPage N p >=? N - 1 |}.
Proof.
  unfold setPage, updateDelayedPage, updateUI at 1. simpl.
  by rewrite goToPage_currentPage.
Qed.

(** [setPage] reads its argument only through the clamp. *)
Lemma clampPage_idemp p : clampPage N (clampPage N p) = clampPage N p.
Proof. unfold clampPage. lia. Qed.

Lemma clampPage_range p : 1 ≤ N → 0 ≤ clampPage N p ≤ N - 1.
Proof. unfold clampPage. lia. Qed.

Lemma setPage_pending_iff_behind p s : pending_iff_behind (setPage N p s).
Proof.
  unfold pending_iff_behind.
  rewrite setPage_animationTimeout, setPage_currentPage.
  destruct (Z.eqb_spec (clampPage N p) (delayedPage (setPage N p s))); split; try done.
Qed.

Lemma fire_currentPage s : currentPage (fire N s) = currentPage s.
Proof. unfold fire. destruct (animationTimeout s); [|done]. by rewrite goToPage_currentPage. Qed.

Lemma fire_delayedPage s :
  pending_iff_behind s →
  delayedPage (fire N s) = delayedPage s + Z.sgn (currentPage s - delayedPage s).
Proof.
  intros Hwf. unfold fire. destruct (animationTimeout s) eqn:Ht.
  - by rewrite goToPage_delayedPage.
  - destruct Hwf as [Hwf _]. rewrite Hwf by done. lia.
Qed.

Lemma fire_animationTimeout s :
  animationTimeout (fire N s)
  = if currentPage s =? delayedPage (fire N s) then None
    else match animationTimeout s with
         | Some _ => Some (stepDelay s)
         | None => None
         end.
Proof.
  unfold fire. destruct (animationTimeout s) eqn:Ht.
  - by rewrite goToPage_animationTimeout.
  - rewrite Ht. by destruct (_ =? _).
Qed.

Lemma fire_pending_iff_behind s : pending_iff_behind s → pending_iff_behind (fire N s).
Proof.
  intros Hwf. unfold pending_iff_behind.
  rewrite fire_animationTimeout, fire_currentPage.
  destruct (Z.eqb_spec (currentPage s) (delayedPage (fire N s))) as [Heq|Hne]; [done|].
  destruct (animationTimeout s) eqn:Ht; [done|].
  exfalso. apply Hne. unfold fire. rewrite Ht. by apply Hwf.
Qed.

End CursorFacts.

(** ** Catch-up runs *)

Section CatchUp.
Variable N : Z.

Lemma gap_fire s :
  pending_iff_behind s → currentPage s ≠ delayedPage s →
  S (gap (fire N s)) = gap s.
Proof.
  intros Hwf Hne. unfold gap.
  rewrite fire_currentPage, fire_delayedPage by done. lia.
Qed.

Lemma pending_cases s :
  pending_iff_behind s →
  (animationTimeout s = None ∧ currentPage s = delayedPage s ∧ gap s = 0%nat)
  ∨ (∃ t, animationTimeout s = Some t ∧ currentPage s ≠ delayedPage s).
Proof.
  intros [H1 H2]. destruct (animationTimeout s) eqn:Ht.
  - right. eexists; split; [done|]. intros Heq. by specialize (H2 Heq).
  - left. unfold gap. rewrite H1 by done. split_and!; [done..|lia].
Qed.

(** More fuel than the gap changes nothing: the run has stopped. *)
Lemma run_enough fuel s :
  pending_iff_behind s → (gap s ≤ fuel)%nat → run N fuel s = run N (gap s) s.
Proof.
  revert s. induction fuel as [|fuel IH]; intros s Hwf Hle.
  - by replace (gap s) with 0%nat by lia.
  - destruct (pending_cases s Hwf) as [(Ht & _ & Hg)|(t & Ht & Hne)].
    + rewrite Hg. simpl. by rewrite Ht.
    + pose proof (gap_fire s Hwf Hne) as Hg. rewrite <- Hg. simpl. rewrite Ht.
      f_equal. apply IH; [by apply fire_pending_iff_behind | lia].
Qed.

(** The [k]-th expiry of the callback leaves [delayedPage] [k+1] units
    closer to [currentPage]; there are exactly [gap s] expiries. *)
Lemma run_lookup fuel s k :
  pending_iff_behind s → (gap s ≤ fuel)%nat →
  (delayedPage <$> run N fuel s) !! k
  = if decide (k < gap s)%nat
    then Some (delayedPage s + Z.sgn (currentPage s - delayedPage s) * (Z.of_nat k + 1))
    else None.
Proof.
  revert s k. induction fuel as [|fuel IH]; intros s k Hwf Hle.
  - cbn [run]. rewrite fmap_nil, lookup_nil. case_decide; [lia|done].
  - destruct (pending_cases s Hwf) as [(Ht & _ & Hg)|(t & Ht & Hne)].
    + cbn [run]. rewrite Ht, Hg, fmap_nil, lookup_nil. case_decide; [lia|done].
    + pose proof (gap_fire s Hwf Hne) as Hg.
      simpl. rewrite Ht. destruct k as [|k]; simpl.
      * rewrite fire_delayedPage by done. case_decide; [f_equal; lia | lia].
      * rewrite IH; [|by apply fire_pending_iff_behind | lia].
        rewrite fire_currentPage, fire_delayedPage by done.
        repeat case_decide; try lia; try done.
        f_equal.
        assert (Z.sgn (currentPage s
                       - (delayedPage s + Z.sgn (currentPage s - delayedPage s)))
                = Z.sgn (currentPage s - delayedPage s)) as ->; [|lia].
        unfold gap in *. rewrite fire_currentPage, fire_delayedPage in * by done. lia.
Qed.

(** The state in which a run ends. *)
Lemma run_last fuel s :
  pending_iff_behind s → (gap s ≤ fuel)%nat →
  ∃ sf, last (s :: run N fuel s) = Some sf
        ∧ animationTimeout sf = None
        ∧ currentPage sf = currentPage s
        ∧ delayedPage sf = currentPage s.
Proof.
  revert s. induction fuel as [|fuel IH]; intros s Hwf Hle.
  - destruct (pending_cases s Hwf) as [(Ht & Heq & Hg)|(t & Ht & Hne)].
    + exists s. by simpl.
    + pose proof (gap_fire s Hwf Hne). lia.
  - destruct (pending_cases s Hwf) as [(Ht & Heq & Hg)|(t & Ht & Hne)].
    + exists s. simpl. by rewrite Ht.
    + pose proof (gap_fire s Hwf Hne) as Hg.
      destruct (IH (fire N s)) as (sf & Hl & H1 & H2 & H3);
        [by apply fire_pending_iff_behind | lia |].
      exists sf. simpl. rewrite Ht. rewrite last_cons.
      simpl in Hl. rewrite Hl. rewrite fire_currentPage in *. done.
Qed.

(** A run makes exactly [gap s] steps. *)
Lemma run_length fuel s :
  pending_iff_behind s → (gap s ≤ fuel)%nat → length (run N fuel s) = gap s.
Proof.
  revert s. induction fuel as [|fuel IH]; intros s Hwf Hle.
  - simpl. lia.
  - destruct (pending_cases s Hwf) as [(Ht & _ & Hg)|(t & Ht & Hne)].
    + simpl. by rewrite Ht, Hg.
    + pose proof (gap_fire s Hwf Hne) as Hg. simpl. rewrite Ht. simpl.
      rewrite IH; [done | by apply fire_pending_iff_behind | lia].
Qed.

End CatchUp.

Section CatchUpAfterSetPage.
Variable N : Z.

Lemma gap_setPage p s :
  gap (setPage N p s)
  = pred (Z.to_nat (Z.abs (clampPage N p - delayedPage s))).
Proof. unfold gap. rewrite setPage_currentPage, setPage_delayedPage. lia. Qed.

(** Closed form of the values [delayedPage] takes when [setPage p] returns
    and after each later expiry of the callback. *)
Lemma catch_up_lookup p s k x :
  let c := clampPage N p in
  let d := delayedPage s in
  let n := Z.to_nat (Z.abs (c - d)) in
  let s0 := setPage N p s in
  (delayedPage <$> (s0 :: run N n s0)) !! k = Some x
  ↔ (k < max n 1)%nat ∧ x = d + Z.sgn (c - d) * Z.min (Z.of_nat k + 1) (Z.of_nat n).
Proof.
  intros c d n s0.
  pose proof (setPage_pending_iff_behind N p s) as Hwf.
  pose proof (gap_setPage p s) as Hg. fold c d n s0 in Hwf, Hg.
  assert (Hd0 : delayedPage s0 = d + Z.sgn (c - d)) by apply setPage_delayedPage.
  assert (Hc0 : currentPage s0 = c) by apply setPage_currentPage.
  clearbody s0. rewrite fmap_cons. destruct k as [|k]; simpl.
  - rewrite Hd0. split.
    + intros [= <-]. split; [lia|]. subst n. lia.
    + intros [_ ->]. f_equal. subst n. lia.
  - rewrite run_lookup by (done || lia). rewrite Hg, Hd0, Hc0.
    case_decide as Hk.
    + assert (Z.sgn (c - (d + Z.sgn (c - d))) = Z.sgn (c - d)) as -> by (subst n; lia).
      assert (Z.min (Z.of_nat (S k) + 1) (Z.of_nat n) = Z.of_nat k + 2) as -> by lia.
      split.
      * intros [= <-]. split; [lia|]. lia.
      * intros [_ ->]. f_equal. lia.
    + split; [done|]. intros [Hlt _]. lia.
Qed.

End CatchUpAfterSetPage.

(** C4. From any cursor state, once [setPage p] has been called and the
    pending callback is left to expire until none remains, the run stops
    (more fuel adds nothing) with no callback pending and
    [delayedPage = currentPage = clamp p]; every step moves [delayedPage] by
    exactly one unit, always in the direction of the target, so the values
    are monotone, and each integer strictly between the start and the end is
    taken exactly once. *)
Theorem catch_up_converges (N p : Z) (s : Cursor) :
  let c := clampPage N p in
  let d := delayedPage s in
  let s0 := setPage N p s in
  let n := Z.to_nat (Z.abs (c - d)) in
  let sts := s0 :: run N n s0 in
  let tr := delayedPage <$> sts in
  (∀ fuel, (n ≤ fuel)%nat → run N fuel s0 = run N n s0)
  ∧ (∃ sf, last sts = Some sf ∧ animationTimeout sf = None
           ∧ currentPage sf = c ∧ delayedPage sf = c)
  ∧ (∀ k x y, (d :: tr) !! k = Some x → (d :: tr) !! S k = Some y → c ≠ d →
              y = x + Z.sgn (c - d) ∧ Z.abs (y - x) = 1)
  ∧ (∀ i j x y, (i ≤ j)%nat → (d :: tr) !! i = Some x → (d :: tr) !! j = Some y →
                (d ≤ c → x ≤ y) ∧ (c ≤ d → y ≤ x))
  ∧ (∀ z, d < z < c ∨ c < z < d →
          ∃ k, tr !! k = Some z ∧ ∀ k', tr !! k' = Some z → k' = k).
Proof.
  intros c d s0 n sts tr.
  pose proof (setPage_pending_iff_behind N p s) as Hwf.
  pose proof (gap_setPage N p s) as Hg. fold c d n s0 in Hwf, Hg.
  assert (Hc0 : currentPage s0 = c) by apply setPage_currentPage.
  assert (Hlk : ∀ k x, tr !! k = Some x
                ↔ (k < max n 1)%nat ∧ x = d + Z.sgn (c - d) * Z.min (Z.of_nat k + 1) (Z.of_nat n))
    by (intros; apply catch_up_lookup).
  assert (Hlk' : ∀ k x, (d :: tr) !! k = Some x →
                 (k ≤ max n 1)%nat ∧ x = d + Z.sgn (c - d) * Z.min (Z.of_nat k) (Z.of_nat n)).
  { intros [|k] x; simpl.
    - intros [= <-]. split; [lia|]. lia.
    - intros [Hk ->]%Hlk. split; [lia|]. f_equal. f_equal. lia. }
  assert (Hsg : (c < d ∧ Z.sgn (c - d) = -1) ∨ (c = d ∧ Z.sgn (c - d) = 0)
                ∨ (d < c ∧ Z.sgn (c - d) = 1)) by lia.
  split_and!.
  - intros fuel Hle. rewrite (run_enough N fuel s0), (run_enough N n s0); [done | done | lia | done | lia].
  - destruct (run_last N n s0) as (sf & Hl & H1 & H2 & H3); [done | lia |].
    exists sf. by rewrite <- Hc0.
  - intros k x y [Hk ->]%Hlk' [HSk ->]%Hlk' Hne.
    destruct Hsg as [[? ->]|[[? ->]|[? ->]]]; lia.
  - intros i j x y Hij [Hi ->]%Hlk' [Hj ->]%Hlk'.
    destruct Hsg as [[? ->]|[[? ->]|[? ->]]]; lia.
  - intros z Hz.
    exists (Z.to_nat (Z.abs (z - d) - 1)). split.
    + apply Hlk. destruct Hsg as [[? ->]|[[? ->]|[? ->]]]; lia.
    + intros k' [Hk' Hx]%Hlk.
      destruct Hsg as [[? Hs]|[[? Hs]|[? Hs]]]; rewrite Hs in Hx; lia.
Qed.

(** C4, an instance: from the initial cursor of the shipped book,
    [setPage 5] ends with both cursors on 5 and nothing pending. *)
Lemma catch_up_converges_witness :
  (5 ≤ 7)%nat ∧ run 13 7 scenario_A = run 13 5 scenario_A.
Proof.
  split; [lia|].
  exact (proj1 (catch_up_converges 13 5 (initCursor 13)) 7%nat ltac:(vm_compute; lia)).
Defined.

(** C5, as stated, fails on the last step: in scenario A the callbacks
    scheduled by the five steps are not 50, 50, 50, 150, 150, because the
    step that reaches the target schedules nothing. *)
Lemma scenario_A_last_step_schedules_nothing :
  delayedPage <$> (scenario_A :: run 13 5 scenario_A) = [1; 2; 3; 4; 5]
  ∧ animationTimeout <$> (scenario_A :: run 13 5 scenario_A)
    = [Some 50; Some 50; Some 50; Some 150; None]
  ∧ animationTimeout <$> (scenario_A :: run 13 5 scenario_A)
    ≠ [Some 50; Some 50; Some 50; Some 150; Some 150].
Proof. split_and!; [reflexivity..|]. vm_compute. intros [=]. Qed.

(** C5, amended. A catch-up step (a call of [goToPage] while the cursors
    differ) moves [delayedPage] one unit towards [currentPage]; if that does
    not reach [currentPage] it schedules the next step with 50ms when the gap
    before the move exceeds 2 and with 150ms otherwise, and if it does reach
    it nothing is scheduled. For the 13-page book, [setPage 5] from the
    initial state sets the counter to "Page 5 of 12" at once and
    [delayedPage] goes 0,1,2,3,4,5: the first three steps schedule the next
    with 50ms, the fourth with 150ms, the fifth schedules nothing. *)
Theorem catch_up_step_delay (N : Z) (s : Cursor) :
  (currentPage s ≠ delayedPage s →
   let s' := goToPage N (set_animationTimeout None s) in
   delayedPage s' = delayedPage s + Z.sgn (currentPage s - delayedPage s)
   ∧ Z.abs (delayedPage s' - delayedPage s) = 1
   ∧ Z.abs (currentPage s - delayedPage s') = Z.abs (currentPage s - delayedPage s) - 1
   ∧ currentPage s' = currentPage s
   ∧ animationTimeout s'
     = if currentPage s =? delayedPage s' then None
       else Some (if Z.abs (currentPage s - delayedPage s) >? 2 then 50 else 150))
  ∧ (let i := initCursor 13 in
     let s0 := setPage 13 5 i in
     currentPage i = 0 ∧ delayedPage i = 0
     ∧ pageCounter (ui s0) = "Page 5 of 12"
     ∧ (λ x, (delayedPage x, animationTimeout x)) <$> (s0 :: run 13 5 s0)
       = [(1, Some 50); (2, Some 50); (3, Some 50); (4, Some 150); (5, None)]
     ∧ ∀ fuel, (5 ≤ fuel)%nat → run 13 fuel s0 = run 13 5 s0).
Proof.
  split.
  - intros Hne s'. subst s'.
    rewrite goToPage_delayedPage, goToPage_currentPage, goToPage_animationTimeout by done.
    rewrite goToPage_delayedPage. unfold stepDelay. simpl. split_and!; try done; lia.
  - split_and!; try reflexivity.
    intros fuel Hle.
    pose proof (setPage_pending_iff_behind 13 5 (initCursor 13)) as Hwf.
    rewrite (run_enough 13 fuel), (run_enough 13 5); try done; vm_compute; lia.
Qed.

Lemma catch_up_step_delay_witness :
  delayedPage (goToPage 13 (set_animationTimeout None (fire 13 scenario_A))) = 3
  ∧ animationTimeout (goToPage 13 (set_animationTimeout None (fire 13 scenario_A))) = Some 50.
Proof.
  destruct (proj1 (catch_up_step_delay 13 (fire 13 scenario_A)) ltac:(vm_compute; discriminate))
    as (H1 & _ & _ & _ & H5).
  split; [exact H1 | exact H5].
Defined.

(** C6. [setPage] uses its argument only through
    [Math.max(0, Math.min(N - 1, page))]: from any state [setPage (-5)] and
    [setPage 0] give the same state, and so do [setPage (N + 5)] and
    [setPage (N - 1)]; in general [setPage p] and [setPage (clamp p)] give the
    same state, whose [currentPage] is the clamped value, inside [0, N-1]
    for a book with at least one page. *)
Theorem setPage_clamp_equiv (N : Z) (s : Cursor) :
  setPage N (-5) s = setPage N 0 s
  ∧ setPage N (N + 5) s = setPage N (N - 1) s
  ∧ (∀ p, setPage N p s = setPage N (clampPage N p) s
          ∧ currentPage (setPage N p s) = Z.max 0 (Z.min (N - 1) p))
  ∧ (∀ p, 1 ≤ N → 0 ≤ currentPage (setPage N p s) ≤ N - 1).
Proof.
  split_and!.
  - unfold setPage. by replace (clampPage N (-5)) with (clampPage N 0) by (unfold clampPage; lia).
  - unfold setPage.
    by replace (clampPage N (N + 5)) with (clampPage N (N - 1)) by (unfold clampPage; lia).
  - intros p. split; [|apply setPage_currentPage].
    unfold setPage. by rewrite clampPage_idemp.
  - intros p HN. rewrite setPage_currentPage. by apply clampPage_range.
Qed.

Lemma setPage_clamp_equiv_witness :
  0 ≤ currentPage (setPage 13 18 (initCursor 13)) ≤ 12.
Proof.
  exact (proj2 (proj2 (proj2 (setPage_clamp_equiv 13 (initCursor 13)))) 18 ltac:(lia)).
Defined.

(** C10. When [setPage p] is called with [clamp p] different from
    [delayedPage], the first catch-up step happens inside the call: when
    [setPage] returns [delayedPage] has already moved one unit towards the
    clamped target. A callback is pending afterwards exactly when the target
    is not reached yet, and the remaining [|clamp p - delayedPage| - 1] steps
    are the expiries of that callback. *)
Theorem first_step_synchronous (N p : Z) (s : Cursor) :
  clampPage N p ≠ delayedPage s →
  let c := clampPage N p in
  let s' := setPage N p s in
  delayedPage s' = delayedPage s + Z.sgn (c - delayedPage s)
  ∧ Z.abs (delayedPage s' - delayedPage s) = 1
  ∧ Z.abs (c - delayedPage s') = Z.abs (c - delayedPage s) - 1
  ∧ (animationTimeout s' = None ↔ delayedPage s' = c)
  ∧ ∀ fuel, (Z.to_nat (Z.abs (c - delayedPage s)) ≤ fuel)%nat →
            length (run N fuel s') = Z.to_nat (Z.abs (c - delayedPage s) - 1).
Proof.
  intros Hne c s'.
  pose proof (setPage_pending_iff_behind N p s) as Hwf.
  assert (Hd : delayedPage s' = delayedPage s + Z.sgn (c - delayedPage s))
    by apply setPage_delayedPage.
  assert (Hc : currentPage s' = c) by apply setPage_currentPage.
  split_and!; try lia.
  - unfold pending_iff_behind in Hwf. fold s' in Hwf. rewrite Hc in Hwf.
    split; intros H; [symmetry; by apply Hwf | apply Hwf; by symmetry].
  - intros fuel Hle. rewrite run_length; [|done|]; unfold gap; fold s'; rewrite Hc, Hd; lia.
Qed.

Lemma first_step_synchronous_witness :
  delayedPage (setPage 13 5 (initCursor 13)) = 1.
Proof.
  exact (proj1 (first_step_synchronous 13 5 (initCursor 13) ltac:(vm_compute; discriminate))).
Defined.

(** ** Sessions *)

Section SessionFacts.
Variable N : Z.

Lemma setPage_in_book p c : 1 ≤ N → cursor_in_book N c → cursor_in_book N (setPage N p c).
Proof.
  intros HN [_ Hd]. unfold cursor_in_book.
  rewrite setPage_currentPage, setPage_delayedPage.
  pose proof (clampPage_range N p HN). lia.
Qed.

Lemma fire_in_book c : cursor_in_book N c → cursor_in_book N (fire N c).
Proof.
  intros [Hc Hd]. unfold cursor_in_book, fire.
  destruct (animationTimeout c); [|done].
  rewrite goToPage_currentPage, goToPage_delayedPage. simpl. lia.
Qed.

Lemma initCursor_in_book : 1 ≤ N → cursor_in_book N (initCursor N).
Proof. unfold cursor_in_book. simpl. lia. Qed.

(** A frame leaves the cursor alone. *)
Lemma checkIntersection_cursor pick s : cursor (checkIntersection pick s) = cursor s.
Proof.
  unfold checkIntersection. case_decide; [done|].
  destruct (hoveredObject s); simpl; by repeat case_match.
Qed.

Lemma animate_cursor delta clock pick s :
  cursor (animate N delta clock pick s) = cursor s.
Proof. unfold animate. by rewrite checkIntersection_cursor. Qed.

Lemma step_in_book s o :
  1 ≤ N → cursor_in_book N (cursor s) → cursor_in_book N (cursor (step N s o)).
Proof.
  intros HN Hs. destruct o; simpl.
  - by rewrite animate_cursor.
  - unfold onClick, page_onClick. repeat case_match; simpl; try done.
    by apply setPage_in_book.
  - by apply setPage_in_book.
  - by apply setPage_in_book.
  - by apply fire_in_book.
Qed.

Lemma steps_in_book s ops :
  1 ≤ N → cursor_in_book N (cursor s) → cursor_in_book N (cursor (steps N s ops)).
Proof.
  intros HN. revert s. induction ops as [|o ops IH]; intros s Hs; [done|].
  simpl. apply IH. by apply step_in_book.
Qed.

Lemma update_bones_length nowT now delta page opened bookClosed p :
  length (bones (update nowT now delta page opened bookClosed p)) = length (bones p).
Proof. unfold update. case_match. simpl. apply length_imap. Qed.

Lemma update_index nowT now delta page opened bookClosed p :
  index (update nowT now delta page opened bookClosed p) = index p.
Proof. unfold update. by case_match. Qed.

Lemma alter_setHighlighted_intact v k ps :
  bones_intact ps → bones_intact (alter (setHighlighted v) k ps).
Proof. intros H. by apply Forall_alter. Qed.

Lemma checkIntersection_intact pick s :
  bones_intact (pageObjects s) → bones_intact (pageObjects (checkIntersection pick s)).
Proof.
  intros H. unfold checkIntersection. case_decide; [done|].
  destruct (hoveredObject s); simpl; repeat case_match; simpl;
    repeat apply alter_setHighlighted_intact; done.
Qed.

Lemma checkIntersection_length pick s :
  length (pageObjects (checkIntersection pick s)) = length (pageObjects s).
Proof.
  unfold checkIntersection. case_decide; [done|].
  destruct (hoveredObject s); simpl; repeat case_match; simpl;
    by rewrite ?length_alter.
Qed.

Lemma step_intact s o :
  bones_intact (pageObjects s) → bones_intact (pageObjects (step N s o)).
Proof.
  intros H. destruct o; simpl; try done.
  - unfold animate. apply checkIntersection_intact. simpl.
    unfold bones_intact in *. rewrite Forall_lookup in *.
    intros i p [q [Hq ->]]%list_lookup_imap_Some.
    rewrite update_bones_length. by eapply H.
  - unfold onClick, page_onClick. repeat case_match; simpl; try done.
    by apply alter_setHighlighted_intact.
Qed.

Lemma step_length s o :
  length (pageObjects (step N s o)) = length (pageObjects s).
Proof.
  destruct o; simpl; try done.
  - unfold animate. rewrite checkIntersection_length. simpl. apply length_imap.
  - unfold onClick, page_onClick. repeat case_match; simpl; try done.
    apply length_alter.
Qed.

Lemma steps_intact s ops :
  bones_intact (pageObjects s) → bones_intact (pageObjects (steps N s ops)).
Proof.
  revert s. induction ops as [|o ops IH]; intros s Hs; [done|].
  simpl. apply IH. by apply step_intact.
Qed.

Lemma steps_length s ops :
  length (pageObjects (steps N s ops)) = length (pageObjects s).
Proof.
  revert s. induction ops as [|o ops IH]; intros s; [done|].
  simpl. by rewrite IH, step_length.
Qed.

End SessionFacts.

Lemma createPage_bones_length i pd : length (bones (createPage i pd)) = S PAGE_SEGMENTS.
Proof. reflexivity. Qed.

Lemma initSession_intact pgs : bones_intact (pageObjects (initSession pgs)).
Proof.
  unfold bones_intact. simpl. rewrite Forall_lookup.
  by intros i p [q [_ ->]]%list_lookup_imap_Some.
Qed.

(** C7. A click while the page at position [k] is hovered runs that page's
    click handler: the cursor becomes what [setPage index] gives when the
    page's [lastOpened] is true and what [setPage (index + 1)] gives when it
    is false, and the page's highlight is cleared. [lastOpened] is the
    [opened] argument of the page's latest [update]. In particular a click
    on page index 2 with [lastOpened] false calls [setPage 3]. *)
Theorem click_sets_page (N : Z) (s : Session) (k : nat) (p : PageObject) :
  hoveredObject s = Some k →
  pageObjects s !! k = Some p →
  cursor (onClick N s)
  = setPage N (if lastOpened p then index p else index p + 1) (cursor s)
  ∧ pageObjects (onClick N s) = alter (setHighlighted false) k (pageObjects s)
  ∧ (index p = 2 → lastOpened p = false →
     newPage p = 3 ∧ cursor (onClick N s) = setPage N 3 (cursor s))
  ∧ (∀ nowT now delta page opened bookClosed,
       lastOpened (update nowT now delta page opened bookClosed p) = opened).
Proof.
  intros Hh Hp. unfold onClick, page_onClick, newPage. rewrite Hh, Hp. simpl.
  split_and!; try done.
  - intros -> ->. done.
  - intros. unfold update. destruct (lastOpened p), opened; done.
Qed.

Lemma click_sets_page_witness :
  hoveredObject hovering_page2 = Some 2%nat
  ∧ cursor (onClick 13 hovering_page2) = setPage 13 3 (cursor hovering_page2).
Proof.
  split; [reflexivity|].
  destruct (click_sets_page 13 hovering_page2 2
              (setHighlighted true (update 1000 1000 (1 / 60) 0 false true (fresh_page 2)))
              eq_refl eq_refl)
    as (_ & _ & H & _).
  exact (proj2 (H eq_refl eq_refl)).
Defined.

(** C8. A page is created with [PAGE_SEGMENTS + 1] bones, and whatever
    happens afterwards (frames, clicks, the two buttons, the catch-up
    callback) every page of the session still has exactly that many; the
    operations on a single page, [update] and [setHighlighted], keep the
    length of its chain, and the number of pages does not change either. *)
Theorem bone_chain_length_constant (pgs : list PageData) (ops : list Op) :
  let N := Z.of_nat (length pgs) in
  let s := steps N (initSession pgs) ops in
  (∀ i pd, length (bones (createPage i pd)) = (PAGE_SEGMENTS + 1)%nat)
  ∧ length (pageObjects s) = length pgs
  ∧ (∀ k p, pageObjects s !! k = Some p → length (bones p) = (PAGE_SEGMENTS + 1)%nat)
  ∧ (∀ p nowT now delta page opened bookClosed v,
       length (bones (update nowT now delta page opened bookClosed p)) = length (bones p)
       ∧ length (bones (setHighlighted v p)) = length (bones p)).
Proof.
  intros N s. split_and!.
  - intros. rewrite createPage_bones_length. lia.
  - subst s. rewrite steps_length. simpl. apply length_imap.
  - intros k p Hk.
    pose proof (steps_intact N _ ops (initSession_intact pgs)) as H.
    unfold bones_intact in H. rewrite Forall_lookup in H.
    rewrite (H k p Hk). lia.
  - intros. split; [apply update_bones_length | done].
Qed.

Lemma bone_chain_length_constant_witness :
  pageObjects (steps 13 (initSession pages) [OpNext; OpTimeout; OpClick]) !! 4%nat
  = Some (fresh_page 4)
  ∧ length (bones (fresh_page 4)) = 31%nat.
Proof.
  split; [reflexivity|].
  exact (proj1 (proj2 (proj2 (bone_chain_length_constant pages [OpNext; OpTimeout; OpClick])))
               4%nat (fresh_page 4) eq_refl).
Defined.

(** C9. In every state the session can reach, for a book with at least one
    page, [delayedPage] (and [currentPage]) lie in [0, N-1]; so
    [delayedPage] is never [N], and the [bookClosed] argument that [animate]
    passes, [delayedPage === 0 || delayedPage === pages.length], has the
    value of [delayedPage === 0]. *)
Theorem delayedPage_in_book (pgs : list PageData) (ops : list Op) :
  pgs ≠ [] →
  let N := Z.of_nat (length pgs) in
  let s := steps N (initSession pgs) ops in
  let d := delayedPage (cursor s) in
  0 ≤ d ≤ N - 1
  ∧ 0 ≤ currentPage (cursor s) ≤ N - 1
  ∧ d ≠ N
  ∧ bool_decide (d = 0) || bool_decide (d = N) = bool_decide (d = 0)
  ∧ ((d = 0 ∨ d = N) ↔ d = 0).
Proof.
  intros Hne N s d.
  assert (HN : 1 ≤ N) by (subst N; destruct pgs; [done | simpl; lia]).
  destruct (steps_in_book N (initSession pgs) ops HN) as [Hc Hd].
  { simpl. by apply initCursor_in_book. }
  fold s in Hc, Hd. fold d in Hd.
  split_and!; try lia.
  rewrite (bool_decide_eq_false_2 (d = N)) by lia. by rewrite orb_false_r.
Qed.

Lemma delayedPage_in_book_witness :
  0 ≤ delayedPage (cursor (steps 13 (initSession pages) [OpNext; OpNext; OpTimeout; OpPrev])) ≤ 12.
Proof.
  exact (proj1 (delayedPage_in_book pages [OpNext; OpNext; OpTimeout; OpPrev]
                                    ltac:(discriminate))).
Defined.

(** ** Page kinematics *)

Section Kinematics.
Open Scope R_scope.

(** What [update] does to each bone: one easing step towards
    [boneTargets], with the envelope anchored at the transition time. *)
Lemma update_bones_lookup nowT now delta page opened bookClosed p i b :
  bones p !! i = Some b →
  bones (update nowT now delta page opened bookClosed p) !! i
  = Some (easeBone delta
            (boneTargets (length (bones p)) i
               (turningTime now (if negb (eqb (lastOpened p) opened)
                                 then nowT else turnedAt p))
               (targetRotation opened bookClosed (index p)) bookClosed) b).
Proof.
  intros Hb. unfold update.
  destruct (negb (eqb (lastOpened p) opened)); simpl;
    by rewrite list_lookup_imap, Hb.
Qed.

(** The anchor of the envelope moves only on an open/close transition. *)
Lemma update_turnedAt nowT now delta page opened bookClosed p :
  turnedAt (update nowT now delta page opened bookClosed p)
  = if negb (eqb (lastOpened p) opened) then nowT else turnedAt p.
Proof. unfold update. by destruct (negb _). Qed.

Lemma turningTime_upper_clamp now t :
  turningTime now t = sin (PI * Rmin 1 (IZR (now - t) / 400)).
Proof.
  unfold turningTime. f_equal.
  destruct (Rle_dec 400 (IZR (now - t))) as [H|H].
  - rewrite Rmin_left by done. rewrite Rmin_left by lra. lra.
  - rewrite Rmin_right by lra. rewrite Rmin_right by lra. lra.
Qed.

Lemma turningTime_settled now t : (t + 400 ≤ now)%Z → turningTime now t = 0.
Proof.
  intros H. unfold turningTime.
  assert (400 <= IZR (now - t)) by (apply IZR_le; lia).
  rewrite Rmin_left by done.
  replace (400 / 400 * PI) with PI by lra. apply sin_PI.
Qed.

Lemma curveRotationAngle_spec len i tt tr :
  curveRotationAngle len i tt tr = spec_rotationAngleY len i tt tr.
Proof.
  unfold curveRotationAngle, spec_rotationAngleY, insideCurveIntensity,
    outsideCurveIntensity, turningIntensity, INSIDE_CURVE_STRENGTH,
    OUTSIDE_CURVE_STRENGTH, TURNING_CURVE_STRENGTH.
  replace (INR i * (2 / 10) + 25 / 100) with (2 / 10 * INR i + 25 / 100) by lra.
  replace (INR i * (3 / 10) + 9 / 100) with (3 / 10 * INR i + 9 / 100) by lra.
  replace (INR i * PI * (1 / INR len)) with (INR i * PI / INR len)
    by (unfold Rdiv; ring).
  done.
Qed.

End Kinematics.

(** C1, as stated, fails below the anchor: the code clamps the elapsed time
    from above only, so with [Date.now()] 200ms before [turnedAt] the
    envelope is [sin (-PI/2) = -1] where the two-sided clamp gives 0. *)
Lemma turningTime_no_lower_clamp :
  turningTime 800 1000 = (-1)%R ∧ spec_turningTime 800 1000 = 0%R
  ∧ turningTime 800 1000 ≠ spec_turningTime 800 1000.
Proof.
  assert (H1 : turningTime 800 1000 = (-1)%R).
  { unfold turningTime. replace (800 - 1000)%Z with (-200)%Z by lia.
    rewrite Rmin_right by lra.
    replace (-200 / 400 * PI)%R with (- (PI / 2))%R by lra.
    rewrite sin_neg, sin_PI2. done. }
  assert (H2 : spec_turningTime 800 1000 = 0%R).
  { unfold spec_turningTime, spec_clamp. replace (800 - 1000)%Z with (-200)%Z by lia.
    rewrite Rmin_right by lra. rewrite Rmax_left by lra.
    rewrite Rmult_0_r. apply sin_0. }
  split_and!; [done..|]. rewrite H1, H2. lra.
Qed.

(** C1, amended. The envelope is
    [sin (PI * min ((now - turnedAt) / 400, 1))], clamped from above only;
    whenever [now] is not before [turnedAt] this is the two-sided clamp of
    the specification and lies in [0, 1]. It is 0 at [now = turnedAt], 1 at
    [now = turnedAt + 200] and 0 for every [now >= turnedAt + 400]. *)
Theorem turningTime_envelope (now t : Z) :
  turningTime now t = sin (PI * Rmin 1 (IZR (now - t) / 400))
  ∧ ((t ≤ now)%Z → turningTime now t = spec_turningTime now t
                   ∧ (0 <= turningTime now t <= 1)%R)
  ∧ turningTime t t = 0%R
  ∧ turningTime (t + 200) t = 1%R
  ∧ ((t + 400 ≤ now)%Z → turningTime now t = 0%R)
  ∧ (∀ p nowT delta page opened bookClosed i b,
       bones p !! i = Some b →
       let p' := update nowT now delta page opened bookClosed p in
       turnedAt p' = (if negb (eqb (lastOpened p) opened) then nowT else turnedAt p)
       ∧ bones p' !! i
         = Some (easeBone delta
                   (boneTargets (length (bones p)) i (turningTime now (turnedAt p'))
                      (targetRotation opened bookClosed (index p)) bookClosed) b)).
Proof.
  split_and!.
  - apply turningTime_upper_clamp.
  - intros Hle. rewrite turningTime_upper_clamp. unfold spec_turningTime, spec_clamp.
    assert (0 <= IZR (now - t))%R by (apply IZR_le; lia).
    assert (0 <= Rmin 1 (IZR (now - t) / 400) <= 1)%R as [Hlo Hhi].
    { split; [apply Rmin_glb; lra | apply Rmin_l]. }
    rewrite (Rmax_right 0) by done. split; [done|].
    pose proof PI_RGT_0.
    split; [|apply SIN_bound].
    apply sin_ge_0; nra.
  - unfold turningTime. replace (t - t)%Z with 0%Z by lia.
    rewrite Rmin_right by lra.
    replace (0 / 400 * PI)%R with 0%R by lra. apply sin_0.
  - unfold turningTime. replace (t + 200 - t)%Z with 200%Z by lia.
    rewrite Rmin_right by lra.
    replace (200 / 400 * PI)%R with (PI / 2)%R by lra. apply sin_PI2.
  - apply turningTime_settled.
  - intros p nowT delta page opened bookClosed i b Hb p'. subst p'.
    rewrite update_turnedAt. split; [done | by apply update_bones_lookup].
Qed.

Lemma turningTime_envelope_witness :
  (1000 + 400 ≤ 1500)%Z ∧ turningTime 1500 1000 = 0%R.
Proof.
  split; [lia|].
  exact (proj1 (proj2 (proj2 (proj2 (proj2 (turningTime_envelope 1500 1000))))) ltac:(lia)).
Defined.

(** C2, as stated, fails while the book is closed: on such a frame bone 0
    of an unopened page 0 is given [targetRotation = PI/2] as its Y target,
    not the value of the curve formula. *)
Lemma closed_book_overrides_curve :
  fst (boneTargets 31 0 0 (targetRotation false true 0) true)
  ≠ spec_rotationAngleY 31 0 0 (targetRotation false true 0).
Proof.
  unfold boneTargets, spec_rotationAngleY, targetRotation. simpl.
  pose proof PI_RGT_0. pose proof (SIN_bound (2 / 10 * 0 + 25 / 100)) as [_ Hs].
  intros Heq. nra.
Qed.

(** C2, amended. The value computed on lines 424-427 is always
    [0.18 * insideCurve * targetRotation - 0.05 * outsideCurve * targetRotation
     + 0.09 * turningCurve * targetRotation], with [insideCurve] only for
    [i < 8] and [outsideCurve] only for [i >= 8], and on every frame on which
    [bookClosed] is false it is the Y target that [update] eases bone [i]
    towards. Bone 8 gets the outside term and no inside term. *)
Theorem rotation_target_formula (len i : nat) (tt tr : R) :
  curveRotationAngle len i tt tr = spec_rotationAngleY len i tt tr
  ∧ fst (boneTargets len i tt tr false) = spec_rotationAngleY len i tt tr
  ∧ insideCurveIntensity 8 = 0%R
  ∧ outsideCurveIntensity 8 = cos (8 * (3 / 10) + 9 / 100)
  ∧ insideCurveIntensity 7 = sin (7 * (2 / 10) + 25 / 100)
  ∧ outsideCurveIntensity 7 = 0%R
  ∧ fst (boneTargets len 8 tt tr false)
    = (- (5 / 100 * cos (3 / 10 * 8 + 9 / 100) * tr)
       + 9 / 100 * (sin (8 * PI / INR len) * tt) * tr)%R
  ∧ (∀ p nowT now delta page opened b,
       bones p !! i = Some b →
       rotation_y <$> bones (update nowT now delta page opened false p) !! i
       = Some (rotation_y b
               + (spec_rotationAngleY (length (bones p)) i
                    (turningTime now (if negb (eqb (lastOpened p) opened)
                                      then nowT else turnedAt p))
                    (targetRotation opened false (index p))
                  - rotation_y b) * EASING_FACTOR * delta)%R).
Proof.
  split_and!.
  - apply curveRotationAngle_spec.
  - unfold boneTargets. simpl. apply curveRotationAngle_spec.
  - done.
  - unfold outsideCurveIntensity. simpl. f_equal. lra.
  - unfold insideCurveIntensity. simpl. f_equal. lra.
  - done.
  - unfold boneTargets. cbn [fst]. rewrite curveRotationAngle_spec.
    unfold spec_rotationAngleY.
    change (8 <? 8)%nat with false. change (8 <=? 8)%nat with true.
    replace (INR 8) with 8%R by (simpl; lra). cbv zeta. lra.
  - intros p nowT now delta page opened b Hb.
    rewrite (update_bones_lookup _ _ _ _ _ _ _ _ _ Hb). simpl.
    unfold boneTargets. simpl. by rewrite curveRotationAngle_spec.
Qed.

Lemma rotation_target_formula_witness :
  bones (fresh_page 3) !! 8%nat = Some (mkBone 0 0)
  ∧ rotation_y <$> bones (update 100 100 1 1 false false (fresh_page 3)) !! 8%nat
    = Some (0 + (spec_rotationAngleY 31 8 (turningTime 100 0) (targetRotation false false 3)
                 - 0) * EASING_FACTOR * 1)%R.
Proof.
  split; [reflexivity|].
  exact (proj2 (proj2 (proj2 (proj2 (proj2 (proj2 (proj2
           (rotation_target_formula 31 8 0 0)))))))
           (fresh_page 3) 100%Z 100%Z 1%R 1%Z false (mkBone 0 0) eq_refl).
Defined.

(** C3. On a frame with [bookClosed] true, whatever the curve terms are:
    bone 0 is eased towards Y target [targetRotation] (which is then
    [-PI/2] for an opened page and [PI/2] otherwise, without stagger) and X
    target 0, and every bone [i >= 1] towards Y target 0 and X target 0. *)
Theorem closed_book_targets (len i : nat) (tt tr : R) :
  boneTargets len 0 tt tr true = (tr, 0%R)
  ∧ boneTargets len (S i) tt tr true = (0%R, 0%R)
  ∧ (∀ opened idx, targetRotation opened true idx = if opened then (- PI / 2)%R else (PI / 2)%R)
  ∧ (∀ p nowT now delta page opened b,
       bones p !! 0%nat = Some b →
       bones (update nowT now delta page opened true p) !! 0%nat
       = Some (easeBone delta (targetRotation opened true (index p), 0%R) b))
  ∧ (∀ p nowT now delta page opened b,
       bones p !! S i = Some b →
       bones (update nowT now delta page opened true p) !! S i
       = Some (easeBone delta (0%R, 0%R) b)).
Proof.
  assert (H0 : boneTargets len 0 tt tr true = (tr, 0%R)).
  { unfold boneTargets. simpl. by rewrite Rmult_0_l. }
  assert (HS : ∀ l t r, boneTargets l (S i) t r true = (0%R, 0%R)).
  { intros. unfold boneTargets. simpl. by rewrite Rmult_0_l. }
  split_and!; try done.
  - intros p nowT now delta page opened b Hb.
    rewrite (update_bones_lookup _ _ _ _ _ _ _ _ _ Hb).
    unfold boneTargets. simpl. by rewrite Rmult_0_l.
  - intros p nowT now delta page opened b Hb.
    by rewrite (update_bones_lookup _ _ _ _ _ _ _ _ _ Hb), HS.
Qed.

Lemma closed_book_targets_witness :
  bones (fresh_page 0) !! 5%nat = Some (mkBone 0 0)
  ∧ bones (update 0 0 1 0 false true (fresh_page 0)) !! 5%nat
    = Some (easeBone 1 (0%R, 0%R) (mkBone 0 0)).
Proof.
  split; [reflexivity|].
  exact (proj2 (proj2 (proj2 (proj2 (closed_book_targets 31 4 0 0))))
           (fresh_page 0) 0%Z 0%Z 1%R 0%Z false (mkBone 0 0) eq_refl).
Defined.

(** * Further properties of the code *)

(** ** Reachable sessions *)

(** A property of the initial session kept by every operation holds after any
    sequence of operations. *)
Lemma steps_invariant (N : Z) (P : Session → Prop) (s : Session) (ops : list Op) :
  P s → (∀ s' o, P s' → P (step N s' o)) → P (steps N s ops).
Proof.
  intros Hs Hstep. revert s Hs.
  induction ops as [|o ops IH]; intros s Hs; [done|].
  simpl. apply IH. by apply Hstep.
Qed.

Section CursorInvariants.
Variable N : Z.

Lemma setPage_ui_in_sync p c : ui_in_sync N (setPage N p c).
Proof.
  unfold ui_in_sync. rewrite setPage_ui. unfold updateUI, set_ui. cbn [ui].
  by rewrite setPage_currentPage.
Qed.

Lemma goToPage_ui_in_sync c : ui_in_sync N c → ui_in_sync N (goToPage N c).
Proof.
  unfold ui_in_sync, goToPage. intros H.
  destruct (currentPage c =? delayedPage c); [done|].
  simpl. by repeat case_match.
Qed.

Lemma fire_ui_in_sync c : ui_in_sync N c → ui_in_sync N (fire N c).
Proof.
  intros H. unfold fire. destruct (animationTimeout c); [|done].
  by apply goToPage_ui_in_sync.
Qed.

Lemma setPage_delay_ok p c : delay_ok (setPage N p c).
Proof.
  intros t. rewrite setPage_animationTimeout, setPage_currentPage, setPage_delayedPage.
  unfold stepDelay. simpl. zbool; intros [= <-]; zbool; lia.
Qed.

Lemma fire_delay_ok c : delay_ok c → delay_ok (fire N c).
Proof.
  intros H t. unfold fire. destruct (animationTimeout c) eqn:Ht; [|by rewrite Ht].
  rewrite goToPage_animationTimeout, goToPage_currentPage, goToPage_delayedPage by done.
  rewrite ?goToPage_delayedPage. unfold stepDelay. simpl.
  zbool; intros [= <-]; zbool; lia.
Qed.

Lemma setPage_cursor_ok p c : cursor_ok N (setPage N p c).
Proof.
  split_and!; [apply setPage_ui_in_sync | apply setPage_pending_iff_behind
              | apply setPage_delay_ok].
Qed.

Lemma step_cursor_ok s o : cursor_ok N (cursor s) → cursor_ok N (cursor (step N s o)).
Proof.
  intros (H1 & H2 & H3). destruct o; simpl.
  - by rewrite animate_cursor.
  - unfold onClick, page_onClick. repeat case_match; simpl; try done.
    apply setPage_cursor_ok.
  - apply setPage_cursor_ok.
  - apply setPage_cursor_ok.
  - split_and!; [by apply fire_ui_in_sync | by apply fire_pending_iff_behind
                | by apply fire_delay_ok].
Qed.

Lemma initCursor_cursor_ok : cursor_ok N (initCursor N).
Proof. split_and!; [done | done | intros t; simpl; done]. Qed.

End CursorInvariants.

Lemma steps_cursor_ok (pgs : list PageData) (ops : list Op) :
  cursor_ok (Z.of_nat (length pgs))
            (cursor (steps (Z.of_nat (length pgs)) (initSession pgs) ops)).
Proof.
  apply (steps_invariant _ (λ s, cursor_ok _ (cursor s))).
  - apply initCursor_cursor_ok.
  - intros s' o. apply step_cursor_ok.
Qed.

(** X1. In every state the session can reach the page counter and the two
    buttons show the current page: the counter reads
    "Page <currentPage> of <N-1>", the previous button is disabled exactly
    on page 0 and the next button exactly on page N-1, so with two pages or
    more they are never both disabled. *)
Theorem ui_shows_current_page (pgs : list PageData) (ops : list Op) :
  pgs ≠ [] →
  let N := Z.of_nat (length pgs) in
  let c := cursor (steps N (initSession pgs) ops) in
  pageCounter (ui c) = "Page " +:+ pretty (currentPage c) +:+ " of " +:+ pretty (N - 1)
  ∧ (prevBtn_disabled (ui c) = true ↔ currentPage c = 0)
  ∧ (nextBtn_disabled (ui c) = true ↔ currentPage c = N - 1)
  ∧ (2 ≤ N → ¬ (prevBtn_disabled (ui c) = true ∧ nextBtn_disabled (ui c) = true)).
Proof.
  intros Hne N c.
  assert (HN : 1 ≤ N) by (subst N; destruct pgs; [done | simpl; lia]).
  destruct (steps_in_book N (initSession pgs) ops HN) as [Hc _].
  { simpl. by apply initCursor_in_book. }
  destruct (steps_cursor_ok pgs ops) as (Hui & _ & _).
  fold N in Hui. fold c in Hc, Hui. unfold ui_in_sync in Hui. rewrite Hui.
  unfold updateUI. simpl. rewrite Z.geb_le, Z.leb_le. split_and!; [done | lia..].
Qed.

Lemma ui_shows_current_page_witness :
  pageCounter (ui (cursor (steps 13 (initSession pages) [OpNext; OpNext; OpTimeout])))
  = "Page 2 of 12".
Proof.
  exact (proj1 (ui_shows_current_page pages [OpNext; OpNext; OpTimeout] ltac:(discriminate))).
Defined.

(** X2. In every state the session can reach a callback is pending exactly
    while [delayedPage] differs from [currentPage]; its delay is 150ms when
    one step remains and 50ms when two or more remain. *)
Theorem pending_callback_invariant (pgs : list PageData) (ops : list Op) :
  let N := Z.of_nat (length pgs) in
  let c := cursor (steps N (initSession pgs) ops) in
  (animationTimeout c = None ↔ currentPage c = delayedPage c)
  ∧ (∀ t, animationTimeout c = Some t →
          (t = 150 ∧ Z.abs (currentPage c - delayedPage c) = 1)
          ∨ (t = 50 ∧ 2 ≤ Z.abs (currentPage c - delayedPage c))).
Proof.
  intros N c. destruct (steps_cursor_ok pgs ops) as (_ & Hp & Hd).
  fold N in Hp, Hd. fold c in Hp, Hd. split; [done|].
  intros t Ht. specialize (Hd t Ht).
  assert (currentPage c ≠ delayedPage c).
  { intros Heq. apply Hp in Heq. congruence. }
  revert Hd. zbool; lia.
Qed.

Lemma pending_callback_invariant_witness :
  animationTimeout
    (cursor (steps 13 (initSession pages)
               [OpAnimate (1 / 60) (λ _, (1000, 1000)) (Some 5); OpClick])) = Some 50
  ∧ 2 ≤ Z.abs (currentPage
                 (cursor (steps 13 (initSession pages)
                            [OpAnimate (1 / 60) (λ _, (1000, 1000)) (Some 5); OpClick]))
               - delayedPage
                   (cursor (steps 13 (initSession pages)
                              [OpAnimate (1 / 60) (λ _, (1000, 1000)) (Some 5); OpClick]))).
Proof.
  split; [reflexivity|].
  destruct (proj2 (pending_callback_invariant pages
                     [OpAnimate (1 / 60) (λ _, (1000, 1000)) (Some 5); OpClick]) 50 eq_refl)
    as [[H _]|[_ H]]; [discriminate H | exact H].
Defined.

(** X3. [setPage] overwrites [currentPage], the pending callback and the
    three DOM properties: the state it returns depends on its argument and on
    [delayedPage] only, so a callback still pending from an earlier call has
    no effect on it. *)
Theorem setPage_forgets (N p : Z) (s1 s2 : Cursor) :
  delayedPage s1 = delayedPage s2 → setPage N p s1 = setPage N p s2.
Proof.
  destruct s1 as [c1 d1 t1 u1], s2 as [c2 d2 t2 u2]. simpl. intros ->.
  unfold setPage, updateDelayedPage, goToPage, stepDelay, updateUI; simpl.
  repeat (case_match; simpl in *; try done).
Qed.

Lemma setPage_forgets_witness :
  setPage 13 7 (mkCursor 2 4 (Some 50) (mkUi "stale" true true))
  = setPage 13 7 (mkCursor 11 4 None (mkUi "Page 11 of 12" false false)).
Proof. exact (setPage_forgets 13 7 _ _ eq_refl). Defined.

Section Waits.
Variable N : Z.

Lemma run_waits fuel s :
  pending_iff_behind s → delay_ok s → (gap s ≤ fuel)%nat →
  waits (s :: run N fuel s)
  = if (gap s =? 0)%nat then 0 else 150 + 50 * (Z.of_nat (gap s) - 1).
Proof.
  revert s. induction fuel as [|fuel IH]; intros s Hwf Hd Hle.
  - destruct (pending_cases s Hwf) as [(Ht & _ & Hg)|(t & Ht & Hne)].
    + rewrite Hg. simpl. by rewrite Ht.
    + pose proof (gap_fire N s Hwf Hne). lia.
  - destruct (pending_cases s Hwf) as [(Ht & _ & Hg)|(t & Ht & Hne)].
    + rewrite Hg. simpl. by rewrite Ht.
    + pose proof (gap_fire N s Hwf Hne) as Hg.
      cbn [run]. rewrite Ht. change (waits (s :: ?l)) with (default 0 (animationTimeout s) + waits l).
      rewrite IH; [| by apply fire_pending_iff_behind | by apply fire_delay_ok | lia].
      rewrite Ht. simpl. rewrite (Hd t Ht).
      assert (Z.abs (currentPage s - delayedPage s) = Z.of_nat (gap s)) as -> by (unfold gap; lia).
      destruct (gap (fire N s)) eqn:E; rewrite <- Hg; simpl (_ =? _)%nat; cbv iota; zbool; lia.
Qed.

End Waits.

(** X4. After [setPage p] the delays of the callbacks that run until the
    catch-up is complete add up to 0 when [delayedPage] is at most one page
    from the clamped target, and to [150 + 50 * (n - 2)] milliseconds when
    it is [n >= 2] pages away. *)
Theorem catch_up_total_wait (N p : Z) (s : Cursor) :
  let n := Z.abs (clampPage N p - delayedPage s) in
  let s0 := setPage N p s in
  waits (s0 :: run N (Z.to_nat n) s0)
  = if n <=? 1 then 0 else 150 + 50 * (n - 2).
Proof.
  intros n s0.
  pose proof (gap_setPage N p s) as Hg. fold s0 in Hg.
  rewrite run_waits;
    [| apply setPage_pending_iff_behind | apply setPage_delay_ok | subst n; lia].
  rewrite Hg. subst n. destruct (Nat.eqb_spec (pred (Z.to_nat (Z.abs (clampPage N p - delayedPage s)))) 0);
    zbool; lia.
Qed.

Lemma setPage_clampPage (N p : Z) (s : Cursor) :
  setPage N p s = setPage N (clampPage N p) s.
Proof. unfold setPage. by rewrite clampPage_idemp. Qed.

(** X5. On a cursor inside the book [nextPage] and [previousPage] move
    [currentPage] by one and saturate at the last and the first page; away
    from the ends each undoes the other's effect on [currentPage]. Once the
    catch-up is complete, [nextPage] on the last page and [previousPage] on
    the first leave the whole state as it is. *)
Theorem next_previous_page (N : Z) (s : Cursor) :
  cursor_in_book N s →
  currentPage (nextPage N s) = Z.min (currentPage s + 1) (N - 1)
  ∧ currentPage (previousPage N s) = Z.max (currentPage s - 1) 0
  ∧ (currentPage s < N - 1 → currentPage (previousPage N (nextPage N s)) = currentPage s)
  ∧ (0 < currentPage s → currentPage (nextPage N (previousPage N s)) = currentPage s)
  ∧ (cursor_ok N s → delayedPage s = currentPage s →
     (currentPage s = N - 1 → nextPage N s = s)
     ∧ (currentPage s = 0 → previousPage N s = s)).
Proof.
  intros [Hc Hd]. unfold nextPage, previousPage.
  rewrite !setPage_currentPage. unfold clampPage. split_and!; try lia.
  intros (Hui & Hp & _) Heq.
  assert (Ht : animationTimeout s = None) by (by apply Hp).
  unfold ui_in_sync in Hui.
  assert (Hfix : setPage N (currentPage s) s = s).
  { destruct s as [c d t u]. simpl in *. subst.
    unfold setPage, updateDelayedPage, goToPage, clampPage. simpl.
    replace (Z.max 0 (Z.min (N - 1) c)) with c by lia.
    by rewrite Z.eqb_refl. }
  split; intros Hend.
  - rewrite setPage_clampPage.
    replace (clampPage N (currentPage s + 1)) with (currentPage s)
      by (unfold clampPage; lia). done.
  - rewrite setPage_clampPage.
    replace (clampPage N (currentPage s - 1)) with (currentPage s)
      by (unfold clampPage; lia). done.
Qed.

Lemma next_previous_page_witness :
  currentPage (nextPage 13 (initCursor 13)) = Z.min (currentPage (initCursor 13) + 1) (13 - 1).
Proof.
  exact (proj1 (next_previous_page 13 (initCursor 13) ltac:(by apply initCursor_in_book))).
Defined.

(** ** Easing of one page *)

Section Easing.
Open Scope R_scope.

Lemma update_highlighted nowT now delta page opened bookClosed p :
  highlighted (update nowT now delta page opened bookClosed p) = highlighted p.
Proof. unfold update. by destruct (negb _). Qed.

Lemma update_lastOpened nowT now delta page opened bookClosed p :
  lastOpened (update nowT now delta page opened bookClosed p) = opened.
Proof. unfold update. destruct (lastOpened p), opened; done. Qed.

Lemma update_position_z nowT now delta page opened bookClosed p :
  position_z (update nowT now delta page opened bookClosed p)
  = (IZR page - IZR (index p)) * PAGE_DEPTH.
Proof. unfold update. destruct (negb _); simpl; lra. Qed.

Lemma update_emissive nowT now delta page opened bookClosed p :
  emissiveIntensity4 (update nowT now delta page opened bookClosed p)
  = 9 / 10 * emissiveIntensity4 p + 1 / 10 * (if highlighted p then 22 / 100 else 0)
  ∧ emissiveIntensity5 (update nowT now delta page opened bookClosed p)
    = 9 / 10 * emissiveIntensity5 p + 1 / 10 * (if highlighted p then 22 / 100 else 0).
Proof. unfold update, MathUtils.lerp. destruct (negb _); simpl; split; lra. Qed.

Lemma Rabs_scale_le k e : -1 <= k <= 1 → Rabs (k * e) <= Rabs e.
Proof.
  intros Hk. rewrite Rabs_mult.
  assert (Rabs k <= 1) by (apply Rabs_le; lra).
  pose proof (Rabs_pos e). nra.
Qed.

Lemma Rabs_scale_gt k e : k < -1 → e ≠ 0 → Rabs e < Rabs (k * e).
Proof.
  intros Hk He. rewrite Rabs_mult.
  assert (1 < Rabs k) by (rewrite Rabs_left by lra; lra).
  pose proof (Rabs_pos_lt e He). nra.
Qed.

End Easing.

(** X6. One call of [update] multiplies the distance of every bone to its
    target by [1 - 0.5 * delta] for the Y angle and [1 - 0.3 * delta] for
    the X angle. So a frame with [delta = 0] leaves the bones where they
    are, for [0 <= delta <= 2] no angle moves away from its target, and for
    [delta > 4] a Y angle that is off its target ends further from it than
    it was. *)
Theorem easing_contracts (p : PageObject) (nowT now : Z) (delta : R) (page : Z)
        (opened bookClosed : bool) (i : nat) (b : Bone) :
  bones p !! i = Some b →
  let T := boneTargets (length (bones p)) i
             (turningTime now (turnedAt (update nowT now delta page opened bookClosed p)))
             (targetRotation opened bookClosed (index p)) bookClosed in
  ∃ b', bones (update nowT now delta page opened bookClosed p) !! i = Some b'
    ∧ (rotation_y b' - fst T = (1 - EASING_FACTOR * delta) * (rotation_y b - fst T))%R
    ∧ (rotation_x b' - snd T = (1 - EASING_FACTOR_FOLD * delta) * (rotation_x b - snd T))%R
    ∧ (delta = 0%R → b' = b)
    ∧ ((0 <= delta <= 2)%R →
       (Rabs (rotation_y b' - fst T) <= Rabs (rotation_y b - fst T))%R
       ∧ (Rabs (rotation_x b' - snd T) <= Rabs (rotation_x b - snd T))%R)
    ∧ ((4 < delta)%R → rotation_y b ≠ fst T →
       (Rabs (rotation_y b - fst T) < Rabs (rotation_y b' - fst T))%R).
Proof.
  intros Hb T. eexists. split.
  { rewrite (update_bones_lookup _ _ _ _ _ _ _ _ _ Hb).
    rewrite <- (update_turnedAt nowT now delta page opened bookClosed p).
    fold T. reflexivity. }
  unfold easeBone, EASING_FACTOR, EASING_FACTOR_FOLD. simpl.
  assert (Hy : (rotation_y b + (fst T - rotation_y b) * (5 / 10) * delta - fst T
                = (1 - 5 / 10 * delta) * (rotation_y b - fst T))%R) by lra.
  assert (Hx : (rotation_x b + (snd T - rotation_x b) * (3 / 10) * delta - snd T
                = (1 - 3 / 10 * delta) * (rotation_x b - snd T))%R) by lra.
  split_and!; try done.
  - intros ->. destruct b as [y x]. simpl. f_equal; lra.
  - intros Hd. rewrite Hy, Hx. split; apply Rabs_scale_le; lra.
  - intros Hd Hne. rewrite Hy. apply Rabs_scale_gt; lra.
Qed.

Lemma easing_contracts_witness :
  ∃ b', bones (update 0 0 1 0 false true (fresh_page 0)) !! 3%nat = Some b'
    ∧ (rotation_y b' - 0 = (1 - EASING_FACTOR * 1) * (0 - 0))%R.
Proof.
  destruct (easing_contracts (fresh_page 0) 0 0 1 0 false true 3 (mkBone 0 0) eq_refl)
    as (b' & H1 & H2 & _).
  exists b'. split; [exact H1 | exact H2].
Defined.

Section ClosedBook.
Open Scope R_scope.

Lemma update_frames_index n clock delta page opened bookClosed p :
  index (update_frames n clock delta page opened bookClosed p) = index p.
Proof. induction n as [|n IH]; [done|]. simpl. by rewrite update_index. Qed.

Lemma update_frames_highlighted n clock delta page opened bookClosed p :
  highlighted (update_frames n clock delta page opened bookClosed p) = highlighted p.
Proof. induction n as [|n IH]; [done|]. simpl. by rewrite update_highlighted. Qed.

End ClosedBook.

(** X7. While the book is closed the bones settle geometrically: after [n]
    frames of step [delta] with [bookClosed] true, bone 0 has its distance
    to [targetRotation] multiplied by [(1 - 0.5 * delta) ^ n], every other
    bone has its Y angle multiplied by [(1 - 0.5 * delta) ^ n], and every
    bone has its X angle multiplied by [(1 - 0.3 * delta) ^ n], whatever
    the clock reads. *)
Theorem closed_book_settles (n : nat) (clock : nat → Z * Z) (delta : R) (page : Z)
        (opened : bool) (p : PageObject) (i : nat) (b : Bone) :
  bones p !! i = Some b →
  let T := if (i =? 0)%nat then targetRotation opened true (index p) else 0%R in
  ∃ b', bones (update_frames n clock delta page opened true p) !! i = Some b'
    ∧ (rotation_y b' - T = (1 - EASING_FACTOR * delta) ^ n * (rotation_y b - T))%R
    ∧ (rotation_x b' = (1 - EASING_FACTOR_FOLD * delta) ^ n * rotation_x b)%R.
Proof.
  intros Hb T. induction n as [|n (b' & Hb' & Hy & Hx)].
  - exists b. simpl. split_and!; [done | lra..].
  - eexists. simpl. split.
    { rewrite (update_bones_lookup _ _ _ _ _ _ _ _ _ Hb'). reflexivity. }
    rewrite update_frames_index.
    unfold easeBone, boneTargets. simpl.
    assert (HT : fst (if (i =? 0)%nat then (targetRotation opened true (index p), 0%R)
                      else (0%R, 0%R)) = T) by (subst T; by destruct (i =? 0)%nat).
    assert (HX : snd (if (i =? 0)%nat then (targetRotation opened true (index p), 0%R)
                      else (0%R, 0%R)) = 0%R) by (by destruct (i =? 0)%nat).
    destruct (i =? 0)%nat; simpl in *; subst T; split; nra.
Qed.

Lemma closed_book_settles_witness :
  ∃ b', bones (update_frames 2 (λ _, (0, 0)%Z) 1 0 false true (fresh_page 0)) !! 3%nat = Some b'
    ∧ (rotation_x b' = (1 - EASING_FACTOR_FOLD * 1) ^ 2 * 0)%R.
Proof.
  destruct (closed_book_settles 2 (λ _, (0, 0)%Z) 1 0 false (fresh_page 0) 3 (mkBone 0 0) eq_refl)
    as (b' & H1 & _ & H3).
  exists b'. split; [exact H1 | exact H3].
Defined.

(** X8. While a page's highlight flag stays as it is, the glow of both
    faces approaches its target (0.22 when highlighted, 0 otherwise) by a
    factor 0.9 per frame, whatever [delta] is: after [n] frames the distance
    to the target is [0.9 ^ n] times the initial one. *)
Theorem glow_closed_form (n : nat) (clock : nat → Z * Z) (delta : R) (page : Z)
        (opened bookClosed : bool) (p : PageObject) :
  let target := if highlighted p then (22 / 100)%R else 0%R in
  let q := update_frames n clock delta page opened bookClosed p in
  (emissiveIntensity4 q - target = (9 / 10) ^ n * (emissiveIntensity4 p - target))%R
  ∧ (emissiveIntensity5 q - target = (9 / 10) ^ n * (emissiveIntensity5 p - target))%R.
Proof.
  intros target q. subst q. induction n as [|n [IH4 IH5]]; simpl.
  - split; lra.
  - destruct (update_emissive (fst (clock n)) (snd (clock n)) delta page opened bookClosed
                (update_frames n clock delta page opened bookClosed p)) as [-> ->].
    rewrite update_frames_highlighted. fold target. split; nra.
Qed.

(** ** Hovering *)

Section Hover.
Variable N : Z.

(** [checkIntersection] in one piece: nothing happens when the ray still
    meets the hovered page; otherwise the old page loses its highlight, the
    new one gets it, and the mouse cursor follows. *)
Lemma checkIntersection_eq pick s :
  checkIntersection pick s
  = let t := intersectedPage pick (pageObjects s) in
    if decide (hoveredObject s = t) then s
    else mkSession (cursor s)
           (hover_alter true t (hover_alter false (hoveredObject s) (pageObjects s)))
           t (match t with Some _ => "pointer" | None => "default" end).
Proof.
  unfold checkIntersection, intersectedPage. cbv zeta.
  case_decide as Hd; [done|].
  destruct (hoveredObject s) as [k|] eqn:Hh;
    destruct (match pick with Some _ => _ | None => _ end) as [t|]; simpl; done.
Qed.

Lemma intersectedPage_lt pick ps k :
  intersectedPage pick ps = Some k → (k < length ps)%nat.
Proof.
  unfold intersectedPage. destruct pick as [i|]; [|done].
  destruct (list_find _ ps) as [[j p]|] eqn:Hf; [|done].
  simpl. intros [= <-]. apply list_find_Some in Hf as (Hl & _). by eapply lookup_lt_Some.
Qed.

Lemma intersectedPage_index pick ps k :
  indexed ps → intersectedPage pick ps = Some k → pick = Some (Z.of_nat k).
Proof.
  intros Hi. unfold intersectedPage. destruct pick as [i|]; [|done].
  destruct (list_find _ ps) as [[j p]|] eqn:Hf; [|done].
  simpl. intros [= <-]. apply list_find_Some in Hf as (Hl & Hp & _).
  by rewrite <- Hp, (Hi _ _ Hl).
Qed.

(** Highlighting changes nothing that the pick looks at. *)
Lemma intersectedPage_ext pick ps ps' :
  index <$> ps = index <$> ps' → intersectedPage pick ps = intersectedPage pick ps'.
Proof.
  intros He. unfold intersectedPage. destruct pick as [i|]; [|done].
  assert (H : ∀ l, fst <$> list_find (λ p, index p = i) l
                   = fst <$> list_find (λ z, z = i) (index <$> l)).
  { intros l. rewrite list_find_fmap. destruct (list_find _ l) as [[j p]|]; done. }
  by rewrite !H, He.
Qed.

Lemma index_hover_alter v o ps : index <$> hover_alter v o ps = index <$> ps.
Proof.
  destruct o as [k|]; [|done]. simpl. apply list_eq. intros j.
  rewrite !list_lookup_fmap. destruct (decide (j = k)) as [->|Hne].
  - rewrite list_lookup_alter_eq. by destruct (ps !! k).
  - by rewrite list_lookup_alter_ne.
Qed.

Lemma length_hover_alter v o ps : length (hover_alter v o ps) = length ps.
Proof. destruct o; [apply length_alter | done]. Qed.

Lemma hover_alter_lookup v o ps j q :
  hover_alter v o ps !! j = Some q →
  ∃ p, ps !! j = Some p ∧ q = (if decide (o = Some j) then setHighlighted v p else p).
Proof.
  destruct o as [k|]; unfold hover_alter.
  - destruct (decide (j = k)) as [->|Hne].
    + rewrite list_lookup_alter_eq. destruct (ps !! k) as [p|]; [|done].
      intros [= <-]. exists p. by rewrite decide_True.
    + rewrite list_lookup_alter_ne by done. intros H. exists q.
      rewrite decide_False; [done | congruence].
  - intros H. exists q. by rewrite decide_False.
Qed.

Lemma checkIntersection_hover_consistent pick s :
  hover_consistent s → hover_consistent (checkIntersection pick s).
Proof.
  intros (H1 & H2 & H3). rewrite checkIntersection_eq. cbv zeta.
  case_decide as Hd; [done|].
  split_and!; simpl.
  - intros k Hk. rewrite !length_hover_alter. by eapply intersectedPage_lt.
  - intros j q Hq Hhi.
    apply hover_alter_lookup in Hq as (p1 & Hp1 & ->).
    apply hover_alter_lookup in Hp1 as (p & Hp & ->).
    destruct (decide (intersectedPage pick (pageObjects s) = Some j)) as [Ht|Ht]; [done|].
    exfalso.
    destruct (decide (hoveredObject s = Some j)) as [Ho|Ho]; simpl in Hhi; [done|].
    apply Ho. by eapply H2.
  - destruct (intersectedPage pick (pageObjects s)); split; done.
Qed.

Lemma update_hover_consistent (f : nat → PageObject → PageObject) s :
  (∀ k p, highlighted (f k p) = highlighted p) →
  hover_consistent s →
  hover_consistent (mkSession (cursor s) (imap f (pageObjects s)) (hoveredObject s)
                              (body_cursor s)).
Proof.
  intros Hf (H1 & H2 & H3). split_and!; simpl; [|
    intros j q [p [Hp ->]]%list_lookup_imap_Some Hhi; rewrite Hf in Hhi; by eapply H2 | done].
  intros k Hk. rewrite length_imap. by apply H1.
Qed.

Lemma step_hover_consistent s o : hover_consistent s → hover_consistent (step N s o).
Proof.
  intros H. destruct o; simpl; try done.
  - unfold animate. apply checkIntersection_hover_consistent.
    apply (update_hover_consistent _ s); [|done].
    intros. apply update_highlighted.
  - pose proof H as (H1 & H2 & H3).
    unfold onClick, page_onClick. destruct (hoveredObject s) as [k|] eqn:Hh; [|done].
    destruct (pageObjects s !! k) as [p|] eqn:Hp; [|done].
    split_and!; simpl; rewrite ?Hh.
    + intros k' Hk'. rewrite length_alter. by apply H1.
    + intros j q Hq Hhi.
      apply (hover_alter_lookup false (Some k)) in Hq as (p' & Hp' & ->).
      case_decide; [done|]. by eapply H2.
    + done.
Qed.

Lemma initSession_hover_consistent pgs : hover_consistent (initSession pgs).
Proof.
  split_and!; simpl; [done | | split; [intros [? [=]] | done]].
  by intros j q [p [_ ->]]%list_lookup_imap_Some.
Qed.

Lemma hover_alter_indexed v o ps : indexed ps → indexed (hover_alter v o ps).
Proof.
  intros Hi k q (p & Hp & ->)%hover_alter_lookup.
  case_decide; [|by apply Hi]. simpl. by apply Hi.
Qed.

Lemma checkIntersection_indexed pick s :
  indexed (pageObjects s) → indexed (pageObjects (checkIntersection pick s)).
Proof.
  intros H. rewrite checkIntersection_eq. cbv zeta.
  case_decide; [done|]. simpl. by do 2 apply hover_alter_indexed.
Qed.

Lemma step_indexed s o : indexed (pageObjects s) → indexed (pageObjects (step N s o)).
Proof.
  intros H. destruct o; simpl; try done.
  - unfold animate. apply checkIntersection_indexed. simpl.
    intros k q [p [Hp ->]]%list_lookup_imap_Some. rewrite update_index. by apply H.
  - unfold onClick, page_onClick. destruct (hoveredObject s) as [k|]; [|done].
    destruct (pageObjects s !! k); [|done]. simpl.
    by apply (hover_alter_indexed false (Some k)).
Qed.

Lemma initSession_indexed pgs : indexed (pageObjects (initSession pgs)).
Proof. by intros k q [p [_ ->]]%list_lookup_imap_Some. Qed.

End Hover.

(** X9. In every state the session can reach the hovered position, if any,
    is a page of the book; a highlighted page is the hovered one, so at most
    one page is highlighted; the mouse cursor is "pointer" exactly while a
    page is hovered; and the page at position [k] carries index [k]. *)
Theorem hover_invariant (pgs : list PageData) (ops : list Op) :
  let N := Z.of_nat (length pgs) in
  let s := steps N (initSession pgs) ops in
  (∀ k, hoveredObject s = Some k → (k < length pgs)%nat)
  ∧ (∀ j p, pageObjects s !! j = Some p → highlighted p = true → hoveredObject s = Some j)
  ∧ (∀ i j p q, pageObjects s !! i = Some p → pageObjects s !! j = Some q →
                highlighted p = true → highlighted q = true → i = j)
  ∧ (is_Some (hoveredObject s) ↔ body_cursor s = "pointer")
  ∧ (∀ k p, pageObjects s !! k = Some p → index p = Z.of_nat k).
Proof.
  intros N s.
  assert (Hh : hover_consistent s).
  { apply (steps_invariant N hover_consistent);
      [apply initSession_hover_consistent | apply step_hover_consistent]. }
  assert (Hi : indexed (pageObjects s)).
  { apply (steps_invariant N (λ s, indexed (pageObjects s)));
      [apply initSession_indexed | apply step_indexed]. }
  destruct Hh as (H1 & H2 & H3). split_and!; try done.
  - intros k Hk. specialize (H1 k Hk). subst s.
    rewrite steps_length in H1. simpl in H1. by rewrite length_imap in H1.
  - intros i j p q Hp Hq Hhp Hhq.
    pose proof (H2 _ _ Hp Hhp). pose proof (H2 _ _ Hq Hhq). congruence.
Qed.

(** X10. A second [checkIntersection] with the same pick changes nothing:
    the leave and enter handlers run once when the resolved page changes,
    not on every frame. *)
Theorem checkIntersection_idempotent (pick : option Z) (s : Session) :
  checkIntersection pick (checkIntersection pick s) = checkIntersection pick s.
Proof.
  rewrite (checkIntersection_eq pick s). cbv zeta.
  case_decide as Hd.
  - rewrite checkIntersection_eq. cbv zeta. by rewrite decide_True.
  - rewrite checkIntersection_eq. cbv zeta. simpl. rewrite decide_True; [done|].
    apply intersectedPage_ext. by rewrite !index_hover_alter.
Qed.

(** ** Pages across a session *)

Section Pages.
Variable N : Z.

(** [checkIntersection] touches nothing but highlight flags. *)
Lemma checkIntersection_lookup pick s j q :
  pageObjects (checkIntersection pick s) !! j = Some q →
  ∃ p, pageObjects s !! j = Some p ∧ setHighlighted false q = setHighlighted false p.
Proof.
  rewrite checkIntersection_eq. cbv zeta. case_decide; [by exists q|]. simpl.
  intros (p1 & Hp1 & ->)%hover_alter_lookup.
  apply hover_alter_lookup in Hp1 as (p & Hp & ->).
  exists p. split; [done|]. by repeat case_decide.
Qed.

Lemma checkIntersection_lookup_fwd pick s j p :
  pageObjects s !! j = Some p →
  ∃ q, pageObjects (checkIntersection pick s) !! j = Some q
       ∧ setHighlighted false q = setHighlighted false p.
Proof.
  intros Hp.
  destruct (lookup_lt_is_Some_2 (pageObjects (checkIntersection pick s)) j) as [q Hq].
  { rewrite checkIntersection_length. by eapply lookup_lt_Some. }
  exists q. split; [done|].
  apply checkIntersection_lookup in Hq as (p' & Hp' & Heq).
  rewrite Hp in Hp'. by injection Hp' as <-.
Qed.

(** What a frame leaves in each page: the page it was, updated with the
    arguments computed from the cursor, up to its highlight flag. *)
Lemma animate_lookup delta clock pick s j q :
  pageObjects (animate N delta clock pick s) !! j = Some q →
  ∃ p, pageObjects s !! j = Some p
       ∧ setHighlighted false q
         = setHighlighted false
             (update (fst (clock j)) (snd (clock j)) delta (delayedPage (cursor s))
                     (bool_decide (delayedPage (cursor s) > index p))
                     (bool_decide (delayedPage (cursor s) = 0)
                      || bool_decide (delayedPage (cursor s) = N)) p).
Proof.
  unfold animate. intros (p' & Hp' & Heq)%checkIntersection_lookup. simpl in Hp'.
  apply list_lookup_imap_Some in Hp' as (p & Hp & ->). by exists p.
Qed.

Lemma animate_lookup_fwd delta clock pick s j p :
  pageObjects s !! j = Some p →
  ∃ q, pageObjects (animate N delta clock pick s) !! j = Some q
       ∧ setHighlighted false q
         = setHighlighted false
             (update (fst (clock j)) (snd (clock j)) delta (delayedPage (cursor s))
                     (bool_decide (delayedPage (cursor s) > index p))
                     (bool_decide (delayedPage (cursor s) = 0)
                      || bool_decide (delayedPage (cursor s) = N)) p).
Proof.
  intros Hp.
  destruct (lookup_lt_is_Some_2 (pageObjects (animate N delta clock pick s)) j) as [q Hq].
  { unfold animate. rewrite checkIntersection_length. simpl. rewrite length_imap.
    by eapply lookup_lt_Some. }
  exists q. split; [done|].
  apply animate_lookup in Hq as (p' & Hp' & Heq).
  rewrite Hp in Hp'. by injection Hp' as <-.
Qed.

(** A property of pages that ignores the highlight flag and that [update]
    keeps (for the arguments a frame passes) is kept by every operation. *)
Lemma step_pages_Forall (P : PageObject → Prop) s o :
  (∀ p q, setHighlighted false q = setHighlighted false p → P p → P q) →
  (∀ nowT now delta p,
     P p → P (update nowT now delta (delayedPage (cursor s))
                     (bool_decide (delayedPage (cursor s) > index p))
                     (bool_decide (delayedPage (cursor s) = 0)
                      || bool_decide (delayedPage (cursor s) = N)) p)) →
  Forall P (pageObjects s) → Forall P (pageObjects (step N s o)).
Proof.
  intros Hhl Hup H. rewrite Forall_lookup in H. destruct o; simpl; try by apply Forall_lookup.
  - apply Forall_lookup. intros j q (p & Hp & Hq)%animate_lookup.
    eapply Hhl; [exact Hq|]. apply Hup. by eapply H.
  - unfold onClick, page_onClick. destruct (hoveredObject s) as [k|]; [|by apply Forall_lookup].
    destruct (pageObjects s !! k); [|by apply Forall_lookup]. simpl.
    apply Forall_lookup. intros j q Hq.
    apply (hover_alter_lookup false (Some k)) in Hq as (p' & Hp' & ->).
    eapply (Hhl p'); [|by eapply H]. by destruct (decide (Some k = Some j)).
Qed.

Lemma update_glow_in_range nowT now delta page opened bookClosed p :
  glow_in_range p → glow_in_range (update nowT now delta page opened bookClosed p).
Proof.
  intros [He Hr]. unfold glow_in_range.
  destruct (update_emissive nowT now delta page opened bookClosed p) as [-> ->].
  rewrite <- He. split; [done|]. destruct (highlighted p); lra.
Qed.

End Pages.

Lemma steps_indexed (pgs : list PageData) (ops : list Op) :
  indexed (pageObjects (steps (Z.of_nat (length pgs)) (initSession pgs) ops)).
Proof.
  apply (steps_invariant _ (λ s, indexed (pageObjects s)));
    [apply initSession_indexed | apply step_indexed].
Qed.

(** X11. In every state the session can reach the two faces of every page
    glow with the same intensity, and that intensity lies between 0 and the
    highlight level 0.22. *)
Theorem glow_stays_in_range (pgs : list PageData) (ops : list Op) :
  let N := Z.of_nat (length pgs) in
  let s := steps N (initSession pgs) ops in
  ∀ k p, pageObjects s !! k = Some p →
         emissiveIntensity4 p = emissiveIntensity5 p
         ∧ (0 <= emissiveIntensity4 p <= 22 / 100)%R.
Proof.
  intros N s k p Hp.
  assert (H : Forall glow_in_range (pageObjects s)).
  { apply (steps_invariant N (λ s, Forall glow_in_range (pageObjects s))).
    - apply Forall_lookup. intros j q [q' [_ ->]]%list_lookup_imap_Some.
      split; simpl; [done | lra].
    - intros s' o. apply step_pages_Forall.
      + intros p' q Heq [H1 H2].
        pose proof (f_equal emissiveIntensity4 Heq) as E4.
        pose proof (f_equal emissiveIntensity5 Heq) as E5. simpl in E4, E5.
        unfold glow_in_range. by rewrite E4, E5.
      + intros. by apply update_glow_in_range. }
  rewrite Forall_lookup in H. exact (H k p Hp).
Qed.

Lemma glow_stays_in_range_witness :
  emissiveIntensity4 (fresh_page 4) = emissiveIntensity5 (fresh_page 4)
  ∧ (0 <= emissiveIntensity4 (fresh_page 4) <= 22 / 100)%R.
Proof. exact (glow_stays_in_range pages [OpNext; OpClick] 4%nat (fresh_page 4) eq_refl). Defined.

(** X12. For a book with at least one page, in every state the session can
    reach a page whose [lastOpened] flag is set has an index below [N - 1]:
    the last page of the book is never opened. *)
Theorem last_page_never_opens (pgs : list PageData) (ops : list Op) :
  pgs ≠ [] →
  let N := Z.of_nat (length pgs) in
  let s := steps N (initSession pgs) ops in
  (∀ k p, pageObjects s !! k = Some p → lastOpened p = true → index p < N - 1)
  ∧ (∀ p, pageObjects s !! (length pgs - 1)%nat = Some p → lastOpened p = false).
Proof.
  intros Hne N s.
  assert (HN : 1 ≤ N) by (subst N; destruct pgs; [done | simpl; lia]).
  assert (H : cursor_in_book N (cursor s)
              ∧ Forall (λ p, lastOpened p = true → index p < N - 1) (pageObjects s)).
  { apply (steps_invariant N
             (λ s, cursor_in_book N (cursor s)
                   ∧ Forall (λ p, lastOpened p = true → index p < N - 1) (pageObjects s))).
    - split; [by apply initCursor_in_book|].
      apply Forall_lookup. by intros j q [q' [_ ->]]%list_lookup_imap_Some.
    - intros s' o [Hc Hf]. split; [by apply step_in_book|].
      apply step_pages_Forall; [| |done].
      + intros p q Heq Hp.
        pose proof (f_equal lastOpened Heq) as E1.
        pose proof (f_equal index Heq) as E2. simpl in E1, E2. by rewrite E1, E2.
      + intros nowT now delta p _. rewrite update_lastOpened, update_index.
        intros Hd%bool_decide_eq_true. destruct Hc as [_ Hd']. lia. }
  destruct H as [_ H]. rewrite Forall_lookup in H. split; [exact H|].
  intros p Hp. destruct (lastOpened p) eqn:E; [|done].
  pose proof (H _ _ Hp E) as Hlt.
  rewrite (steps_indexed pgs ops _ _ Hp) in Hlt. subst N.
  destruct pgs; [done|]. simpl in *. lia.
Qed.

Lemma last_page_never_opens_witness :
  lastOpened (fresh_page 12) = false.
Proof.
  exact (proj2 (last_page_never_opens pages [OpNext; OpClick] ltac:(discriminate))
               (fresh_page 12) eq_refl).
Defined.

(** X13. After a frame of any reachable session, the page at position [j]
    is flagged opened exactly when [j] is below [delayedPage], and lies at
    depth [(delayedPage - j) * PAGE_DEPTH]: the opened pages are a prefix of
    the book and a page further on in the book lies strictly deeper. *)
Theorem frame_orders_pages (pgs : list PageData) (ops : list Op)
        (delta : R) (clock : nat → Z * Z) (pick : option Z) :
  let N := Z.of_nat (length pgs) in
  let s := steps N (initSession pgs) ops in
  let d := delayedPage (cursor s) in
  let s' := animate N delta clock pick s in
  (∀ j p, pageObjects s' !! j = Some p →
          (lastOpened p = true ↔ Z.of_nat j < d)
          ∧ position_z p = ((IZR d - IZR (Z.of_nat j)) * PAGE_DEPTH)%R)
  ∧ (∀ i j p q, pageObjects s' !! i = Some p → pageObjects s' !! j = Some q →
                (i < j)%nat → (position_z q < position_z p)%R).
Proof.
  intros N s d s'.
  assert (H : ∀ j p, pageObjects s' !! j = Some p →
                (lastOpened p = true ↔ Z.of_nat j < d)
                ∧ position_z p = ((IZR d - IZR (Z.of_nat j)) * PAGE_DEPTH)%R).
  { intros j q (p & Hp & Heq)%animate_lookup.
    pose proof (f_equal lastOpened Heq) as E1.
    pose proof (f_equal position_z Heq) as E2. simpl in E1, E2.
    rewrite update_lastOpened in E1. rewrite update_position_z in E2.
    rewrite (steps_indexed pgs ops _ _ Hp) in E1, E2. fold N s d in E1, E2.
    rewrite E1, E2. split; [|done]. rewrite bool_decide_eq_true. lia. }
  split; [exact H|].
  intros i j p q [_ ->]%H [_ ->]%H Hij. unfold PAGE_DEPTH.
  assert (IZR (Z.of_nat i) < IZR (Z.of_nat j))%R by (apply IZR_lt; lia). lra.
Qed.

Lemma frame_orders_pages_witness :
  ∃ p q, pageObjects (animate 13 1 (λ _, (0, 0)) None (steps 13 (initSession pages) [OpNext]))
           !! 2%nat = Some p
         ∧ pageObjects (animate 13 1 (λ _, (0, 0)) None (steps 13 (initSession pages) [OpNext]))
             !! 5%nat = Some q
         ∧ (position_z q < position_z p)%R.
Proof.
  eexists _, _. split; [reflexivity|]. split; [reflexivity|].
  exact (proj2 (frame_orders_pages pages [OpNext] 1 (λ _, (0, 0)) None)
               2%nat 5%nat _ _ eq_refl eq_refl ltac:(lia)).
Defined.

Section Timeouts.
Variable N : Z.

(** Letting the callback expire often enough completes the catch-up and
    touches nothing but the cursor. *)
Lemma timeouts_finish n s :
  pending_iff_behind (cursor s) → (gap (cursor s) ≤ n)%nat →
  let s' := steps N s (replicate n OpTimeout) in
  currentPage (cursor s') = currentPage (cursor s)
  ∧ delayedPage (cursor s') = currentPage (cursor s)
  ∧ animationTimeout (cursor s') = None
  ∧ pageObjects s' = pageObjects s
  ∧ hoveredObject s' = hoveredObject s.
Proof.
  revert s. induction n as [|n IH]; intros s Hwf Hle; simpl.
  - destruct (pending_cases _ Hwf) as [(Ht & Heq & _)|(t & _ & Hne)]; [done|].
    unfold gap in Hle. lia.
  - destruct (IH (on_cursor (fire N) s)) as (H1 & H2 & H3 & H4 & H5).
    + simpl. by apply fire_pending_iff_behind.
    + simpl. destruct (pending_cases _ Hwf) as [(Ht & Heq & Hg)|(t & _ & Hne)].
      * unfold fire. rewrite Ht. lia.
      * pose proof (gap_fire N _ Hwf Hne). lia.
    + simpl in *. rewrite fire_currentPage in *. done.
Qed.

End Timeouts.

(** X14. Clicking a hovered page other than the last one and letting the
    catch-up finish flips that page: both cursors end on the page's index if
    it was opened and one past it if it was not, no callback is left
    pending, and at the next frame the page's [lastOpened] flag is the
    negation of what it was. *)
Theorem click_toggles_page (N : Z) (s : Session) (k : nat) (p : PageObject) (n : nat) :
  hoveredObject s = Some k →
  pageObjects s !! k = Some p →
  0 ≤ index p ≤ N - 2 →
  (Z.to_nat (Z.abs (newPage p - delayedPage (cursor s))) ≤ n)%nat →
  let s' := steps N (onClick N s) (replicate n OpTimeout) in
  currentPage (cursor s') = newPage p
  ∧ delayedPage (cursor s') = newPage p
  ∧ animationTimeout (cursor s') = None
  ∧ ∀ delta clock pick,
      ∃ q, pageObjects (animate N delta clock pick s') !! k = Some q
           ∧ lastOpened q = negb (lastOpened p).
Proof.
  intros Hh Hp Hi Hn s'.
  assert (Hclamp : clampPage N (newPage p) = newPage p).
  { unfold clampPage, newPage. destruct (lastOpened p); lia. }
  assert (Hs : onClick N s
               = mkSession (setPage N (newPage p) (cursor s))
                           (alter (setHighlighted false) k (pageObjects s))
                           (hoveredObject s) (body_cursor s)).
  { unfold onClick, page_onClick. by rewrite Hh, Hp. }
  destruct (timeouts_finish N n (onClick N s)) as (H1 & H2 & H3 & H4 & H5).
  { rewrite Hs. simpl. apply setPage_pending_iff_behind. }
  { rewrite Hs. simpl. rewrite gap_setPage, Hclamp. lia. }
  fold s' in H1, H2, H3, H4, H5.
  rewrite Hs in H1, H2, H4. cbn [cursor pageObjects] in H1, H2, H4.
  rewrite setPage_currentPage, Hclamp in H1, H2.
  split_and!; [done..|].
  intros delta clock pick.
  destruct (animate_lookup_fwd N delta clock pick s' k (setHighlighted false p))
    as (q & Hq & Heq).
  { rewrite H4, list_lookup_alter_eq, Hp. done. }
  exists q. split; [done|].
  pose proof (f_equal lastOpened Heq) as E. simpl in E.
  rewrite E, update_lastOpened, H2. simpl. unfold newPage.
  destruct (lastOpened p); simpl.
  - apply bool_decide_eq_false. lia.
  - apply bool_decide_eq_true. lia.
Qed.

Lemma click_toggles_page_witness :
  currentPage (cursor (steps 13 (onClick 13 hovering_page2) (replicate 5 OpTimeout))) = 3
  ∧ delayedPage (cursor (steps 13 (onClick 13 hovering_page2) (replicate 5 OpTimeout))) = 3.
Proof.
  destruct (click_toggles_page 13 hovering_page2 2
              (setHighlighted true (update 1000 1000 (1 / 60) 0 false true (fresh_page 2))) 5
              eq_refl eq_refl ltac:(simpl; lia) ltac:(vm_compute; lia))
    as (H1 & H2 & _).
  split; [exact H1 | exact H2].
Defined.

(** ** Skinning *)

Section Skinning.
Open Scope R_scope.

Lemma SEGMENT_WIDTH_eq : SEGMENT_WIDTH = 128 / 3000.
Proof.
  unfold SEGMENT_WIDTH, PAGE_WIDTH, PAGE_SEGMENTS.
  replace (INR 30) with 30 by (simpl; lra). lra.
Qed.

Lemma SEGMENT_WIDTH_pos : 0 < SEGMENT_WIDTH.
Proof. rewrite SEGMENT_WIDTH_eq. lra. Qed.

Lemma Int_part_bounds r : IZR (Int_part r) <= r < IZR (Int_part r) + 1.
Proof. destruct (base_Int_part r). lra. Qed.

Lemma Rdiv_nonneg a b : 0 <= a → 0 < b → 0 <= a / b.
Proof.
  intros Ha Hb. unfold Rdiv.
  apply Rmult_le_pos; [done | left; by apply Rinv_0_lt_compat].
Qed.

Lemma skin_index_range x : (0 ≤ skinIndex x ≤ 29)%Z.
Proof. unfold skinIndex, PAGE_SEGMENTS. simpl Z.of_nat. lia. Qed.

Lemma skinWeight_nonneg x :
  0 <= x → skinWeight x = x / SEGMENT_WIDTH - IZR (Int_part (x / SEGMENT_WIDTH)).
Proof.
  intros Hx. pose proof SEGMENT_WIDTH_pos as Hs.
  unfold skinWeight, Js.rem, Js.trunc.
  destruct (Rlt_dec (x / SEGMENT_WIDTH) 0) as [Hneg|_].
  - exfalso. assert (0 <= x / SEGMENT_WIDTH) by (by apply Rdiv_nonneg). lra.
  - field. lra.
Qed.

End Skinning.

(** X15. For a vertex of any abscissa [x], [createPageGeometry] binds it to
    two consecutive bones that exist in the 31-bone chain (the first between
    0 and 29) with weights that add up to 1. For [0 <= x] both weights lie
    in [0, 1]; for [0 <= x < PAGE_WIDTH] the binding encodes the abscissa,
    [x = (skinIndex + skinWeight) * SEGMENT_WIDTH]; and from [PAGE_WIDTH] on
    the first bone stays 29. *)
Theorem skin_binding (x : R) :
  0 ≤ skinIndex x ≤ 29
  ∧ Z.min (skinIndex x + 1) (Z.of_nat PAGE_SEGMENTS) = skinIndex x + 1
  ∧ skinIndex x + 1 < Z.of_nat (length createBones)
  ∧ ((1 - skinWeight x) + skinWeight x + 0 + 0 = 1)%R
  ∧ ((0 <= x)%R → (0 <= skinWeight x < 1)%R ∧ (0 < 1 - skinWeight x <= 1)%R)
  ∧ ((0 <= x < PAGE_WIDTH)%R →
     x = ((IZR (skinIndex x) + skinWeight x) * SEGMENT_WIDTH)%R)
  ∧ ((PAGE_WIDTH <= x)%R → skinIndex x = 29).
Proof.
  pose proof SEGMENT_WIDTH_pos as Hs. pose proof SEGMENT_WIDTH_eq as Hseg.
  pose proof (Int_part_bounds (x / SEGMENT_WIDTH)) as [Hlo Hhi].
  unfold skinIndex, Js.floor, PAGE_SEGMENTS. simpl Z.of_nat.
  split_and!; try (simpl; lia).
  - lra.
  - intros Hx. rewrite skinWeight_nonneg by done. lra.
  - intros [Hx0 Hx1]. rewrite skinWeight_nonneg by done.
    assert (Hq0 : (0 <= x / SEGMENT_WIDTH)%R) by (by apply Rdiv_nonneg).
    assert (Hq1 : (x / SEGMENT_WIDTH < 30)%R).
    { apply (Rmult_lt_reg_r SEGMENT_WIDTH); [done|].
      replace (x / SEGMENT_WIDTH * SEGMENT_WIDTH)%R with x by (field; lra).
      unfold PAGE_WIDTH in Hx1. rewrite Hseg. lra. }
    assert (-1 < Int_part (x / SEGMENT_WIDTH))%Z by (apply lt_IZR; lra).
    assert (Int_part (x / SEGMENT_WIDTH) < 30)%Z by (apply lt_IZR; lra).
    replace (Z.max 0 (Z.min (Z.of_nat 30 - 1) (Int_part (x / SEGMENT_WIDTH))))
      with (Int_part (x / SEGMENT_WIDTH)) by lia.
    field. lra.
  - intros Hx.
    assert (Hq : (30 <= x / SEGMENT_WIDTH)%R).
    { apply (Rmult_le_reg_r SEGMENT_WIDTH); [done|].
      replace (x / SEGMENT_WIDTH * SEGMENT_WIDTH)%R with x by (field; lra).
      unfold PAGE_WIDTH in Hx. rewrite Hseg. lra. }
    assert (29 < Int_part (x / SEGMENT_WIDTH))%Z by (apply lt_IZR; lra).
    lia.
Qed.

Lemma skin_binding_witness :
  (0 <= 0)%R ∧ (0 <= skinWeight 0 < 1)%R.
Proof.
  split; [lra|].
  exact (proj1 (proj1 (proj2 (proj2 (proj2 (proj2 (skin_binding 0))))) ltac:(lra))).
Defined.

Lemma foldl_pushSkin (xs : list R) (acc : list Z * list R) :
  foldl pushSkin acc xs
  = (acc.1 ++ (xs ≫= λ x, [skinIndex x; Z.min (skinIndex x + 1) (Z.of_nat PAGE_SEGMENTS); 0; 0]),
     acc.2 ++ (xs ≫= λ x, [(1 - skinWeight x)%R; skinWeight x; 0%R; 0%R])).
Proof.
  revert acc. induction xs as [|x xs IH]; intros [a b]; simpl.
  - by rewrite !app_nil_r.
  - rewrite IH. simpl. by rewrite <- !app_assoc.
Qed.

Lemma bind_chunk {A B} (f : A → list B) (xs : list A) (k : nat) (x : A) :
  (∀ y, length (f y) = 4%nat) → xs !! k = Some x →
  take 4 (drop (4 * k) (xs ≫= f)) = f x.
Proof.
  intros Hf. revert k. induction xs as [|y xs IH]; intros k Hk; [done|].
  rewrite bind_cons. destruct k as [|k]; simpl in Hk.
  - injection Hk as ->. simpl. by apply take_app_length'.
  - replace (4 * S k)%nat with (4 + 4 * k)%nat by lia.
    rewrite drop_app_add' by done. by apply IH.
Qed.

(** X16. For any list of vertices the two skinning arrays hold four entries
    per vertex, in vertex order: the entries of vertex [k] are
    [skinIndex, skinIndex + 1, 0, 0] and [1 - skinWeight, skinWeight, 0, 0]
    at positions [4k .. 4k+3], and every entry of [skinIndices] is the index
    of a bone of the chain [createPage] builds. *)
Theorem skin_arrays (xs : list R) :
  length (skinAttributes xs).1 = (4 * length xs)%nat
  ∧ length (skinAttributes xs).2 = (4 * length xs)%nat
  ∧ Forall (λ i, 0 ≤ i < Z.of_nat (length createBones)) (skinAttributes xs).1
  ∧ (∀ k x, xs !! k = Some x →
       take 4 (drop (4 * k) (skinAttributes xs).1) = [skinIndex x; skinIndex x + 1; 0; 0]
       ∧ take 4 (drop (4 * k) (skinAttributes xs).2)
         = [(1 - skinWeight x)%R; skinWeight x; 0%R; 0%R]).
Proof.
  unfold skinAttributes. rewrite foldl_pushSkin. simpl.
  split_and!.
  - induction xs as [|x xs IH]; [done|].
    rewrite bind_cons, length_app, IH. simpl. lia.
  - induction xs as [|x xs IH]; [done|].
    rewrite bind_cons, length_app, IH. simpl. lia.
  - apply Forall_bind, Forall_forall. intros x _.
    destruct (skin_index_range x) as (H1 & H2).
    repeat constructor; simpl; lia.
  - intros k x Hk. split.
    + rewrite (bind_chunk _ xs k x) by done.
      destruct (skin_index_range x) as (H1 & H2).
      f_equal. f_equal. unfold PAGE_SEGMENTS. lia.
    + by rewrite (bind_chunk _ xs k x).
Qed.

Lemma skin_arrays_witness :
  take 4 (drop (4 * 1) (skinAttributes [0%R; 1%R]).1) = [skinIndex 1; skinIndex 1 + 1; 0; 0].
Proof. exact (proj1 (proj2 (proj2 (proj2 (skin_arrays [0%R; 1%R]))) 1%nat 1%R eq_refl)). Defined.

(** ** Text wrapping *)

Lemma append_nil_r (s : string) : s +:+ EmptyString = s.
Proof.
  induction s as [|a s IH]; [done|].
  change (String a (s +:+ EmptyString) = String a s). by rewrite IH.
Qed.

Lemma append_assoc (s t u : string) : (s +:+ t) +:+ u = s +:+ (t +:+ u).
Proof.
  induction s as [|a s IH]; [done|].
  change (String a ((s +:+ t) +:+ u) = String a (s +:+ (t +:+ u))). by rewrite IH.
Qed.

Lemma joined_cons (s : string) (l : list string) : joined (s :: l) = s +:+ joined l.
Proof. done. Qed.

Lemma joined_snoc (l : list string) (s : string) : joined (l ++ [s]) = joined l +:+ s.
Proof.
  induction l as [|t l IH].
  - simpl. apply append_nil_r.
  - rewrite <- app_comm_cons, !joined_cons, IH. by rewrite append_assoc.
Qed.

Section Wrapping.
Variable measureText : string → R.

Lemma wrapLoop_joined i words line lines :
  joined (wrapLoop measureText i words line lines)
  = (joined lines +:+ line) +:+ joined ((λ w, w +:+ " ") <$> words).
Proof.
  revert i line lines. induction words as [|w ws IH]; intros i line lines.
  - simpl. by rewrite joined_snoc, append_nil_r.
  - rewrite fmap_cons, joined_cons. cbn [wrapLoop].
    destruct (Rgt_dec _ _); [destruct (0 <? i)%nat|]; rewrite IH.
    + by rewrite joined_snoc, !append_assoc.
    + by rewrite !append_assoc.
    + by rewrite !append_assoc.
Qed.

Lemma wrapLoop_length i words line lines :
  (length lines + 1 ≤ length (wrapLoop measureText i words line lines)
   ≤ length lines + 1 + (if (0 <? i)%nat then length words else pred (length words)))%nat.
Proof.
  revert i line lines. induction words as [|w ws IH]; intros i line lines; simpl.
  - rewrite length_app. simpl. destruct (0 <? i)%nat; lia.
  - destruct (Rgt_dec _ _); [destruct (0 <? i)%nat eqn:Ei|].
    + specialize (IH (S i) (w +:+ " ") (lines ++ [line])).
      rewrite length_app in IH. simpl in IH. lia.
    + specialize (IH (S i) ((line +:+ w) +:+ " ") lines). simpl in IH. lia.
    + specialize (IH (S i) ((line +:+ w) +:+ " ") lines). simpl in IH.
      destruct (0 <? i)%nat; lia.
Qed.

Lemma wrapLoop_line_ok all i words line lines :
  (∀ w, w ∈ words → w ∈ all) →
  (i = 0%nat → line = EmptyString ∧ words ≠ []) →
  ((0 < i)%nat → line_ok measureText all line) →
  Forall (line_ok measureText all) lines →
  Forall (line_ok measureText all) (wrapLoop measureText i words line lines).
Proof.
  revert i line lines. induction words as [|w ws IH]; intros i line lines Hsub H0 Hpos Hl; simpl.
  - apply Forall_app. split; [done|]. constructor; [|done].
    destruct i; [by destruct H0 | apply Hpos; lia].
  - assert (Hw : w ∈ all) by (apply Hsub; left).
    assert (Hsub' : ∀ w', w' ∈ ws → w' ∈ all) by (intros; apply Hsub; by right).
    destruct (Rgt_dec _ _) as [Hwide|Hok]; [destruct i as [|i]; simpl|].
    + apply IH; [done | done | | done].
      intros _. destruct H0 as [-> _]; [done|]. right. by exists w.
    + apply IH; [done | done | | ].
      * intros _. right. by exists w.
      * apply Forall_app. split; [done|]. constructor; [|done]. apply Hpos. lia.
    + apply IH; [done | done | | done].
      intros _. left. unfold Rgt in Hok. lra.
Qed.

End Wrapping.

(** X17. Wrapping loses nothing: whatever the text metrics are, the lines
    written one after another are the words in their order, each followed
    by one space. There is at least one line and, for a text of at least one
    word, no more lines than words. *)
Theorem wrapText_keeps_words (measureText : string → R) (words : list string) :
  joined (wrapText measureText words) = joined ((λ w, w +:+ " ") <$> words)
  ∧ (1 ≤ length (wrapText measureText words) ≤ max 1 (length words))%nat.
Proof.
  unfold wrapText. split.
  - rewrite wrapLoop_joined. done.
  - pose proof (wrapLoop_length measureText 0 words EmptyString []) as H.
    simpl in H. lia.
Qed.

(** X18. Every line of a wrapped text of at least one word is either no
    wider than [canvas.width - 100] or made of a single word (and its
    trailing space): a line is only ever too wide because one word is. *)
Theorem wrapText_lines_fit (measureText : string → R) (words : list string) :
  words ≠ [] →
  ∀ l, l ∈ wrapText measureText words →
       (measureText l <= canvas_width - 100)%R ∨ ∃ w, w ∈ words ∧ l = w +:+ " ".
Proof.
  intros Hne l Hl.
  assert (H : Forall (line_ok measureText words) (wrapText measureText words)).
  { apply wrapLoop_line_ok; [done | done | lia | constructor]. }
  rewrite Forall_forall in H. by apply H.
Qed.

Lemma wrapText_lines_fit_witness :
  (INR (String.length "ab ") * 500 <= canvas_width - 100)%R
  ∨ ∃ w, w ∈ ["ab"; "cd"] ∧ "ab " = w +:+ " ".
Proof.
  apply (wrapText_lines_fit (λ s, (INR (String.length s) * 500)%R) ["ab"; "cd"]);
    [discriminate|].
  unfold wrapText. cbn [wrapLoop Nat.ltb Nat.leb].
  destruct (Rgt_dec _ _); cbn [wrapLoop Nat.ltb Nat.leb];
    (destruct (Rgt_dec _ _) as [?|Hn];
     [apply list_elem_of_here | exfalso; apply Hn; unfold canvas_width; simpl; lra]).
Defined.

(** ** Pointer coordinates *)

(** X19. For a canvas rectangle of positive width and height [onMouseMove]
    maps a pointer inside the rectangle into the square [-1, 1] x [-1, 1],
    the left edge to [x = -1], the right edge to [x = 1], the top edge to
    [y = 1] and the bottom edge to [y = -1]; the client position can be
    read back from the result. *)
Theorem onMouseMove_normalised (clientX clientY : R) (rect : DOMRect) :
  (0 < rect_width rect)%R → (0 < rect_height rect)%R →
  let m := onMouseMove clientX clientY rect in
  ((rect_left rect <= clientX <= rect_left rect + rect_width rect)%R →
   (-1 <= m.1 <= 1)%R)
  ∧ ((rect_top rect <= clientY <= rect_top rect + rect_height rect)%R →
     (-1 <= m.2 <= 1)%R)
  ∧ clientX = (rect_left rect + (m.1 + 1) / 2 * rect_width rect)%R
  ∧ clientY = (rect_top rect + (1 - m.2) / 2 * rect_height rect)%R
  ∧ (onMouseMove (rect_left rect) (rect_top rect) rect = (-1, 1)%R)
  ∧ (onMouseMove (rect_left rect + rect_width rect) (rect_top rect + rect_height rect) rect
     = (1, -1)%R).
Proof.
  intros Hw Hh m. subst m. unfold onMouseMove. simpl.
  split_and!.
  - intros [H1 H2].
    assert (0 <= (clientX - rect_left rect) / rect_width rect <= 1)%R.
    { split; [apply Rdiv_nonneg; lra|].
      apply (Rmult_le_reg_r (rect_width rect)); [done|].
      replace ((clientX - rect_left rect) / rect_width rect * rect_width rect)%R
        with (clientX - rect_left rect)%R by (field; lra). lra. }
    lra.
  - intros [H1 H2].
    assert (0 <= (clientY - rect_top rect) / rect_height rect <= 1)%R.
    { split; [apply Rdiv_nonneg; lra|].
      apply (Rmult_le_reg_r (rect_height rect)); [done|].
      replace ((clientY - rect_top rect) / rect_height rect * rect_height rect)%R
        with (clientY - rect_top rect)%R by (field; lra). lra. }
    lra.
  - field. lra.
  - field. lra.
  - f_equal; field; lra.
  - f_equal; field; lra.
Qed.

Lemma onMouseMove_normalised_witness :
  (-1 <= (onMouseMove 400 300 (mkDOMRect 0 0 800 600)).1 <= 1)%R.
Proof.
  exact (proj1 (onMouseMove_normalised 400 300 (mkDOMRect 0 0 800 600)
                  ltac:(simpl; lra) ltac:(simpl; lra)) ltac:(simpl; lra)).
Defined.

Lemma hover_invariant_witness :
  hoveredObject (steps 13 (initSession pages)
                   [OpAnimate (1 / 60) (λ _, (1000, 1000)) (Some 2)]) = Some 2%nat
  ∧ (2 < length pages)%nat.
Proof.
  split; [reflexivity|].
  exact (proj1 (hover_invariant pages [OpAnimate (1 / 60) (λ _, (1000, 1000)) (Some 2)])
               2%nat eq_refl).
Defined.

(** ** The envelope across frames *)

(** X20. Over a run of frames with the same [opened] argument the anchor
    of the turning envelope is set at most once, by the first frame: after
    one frame or more [turnedAt] is the old anchor if the page already had
    that [opened] state, and otherwise the clock reading of the first
    frame, however many frames follow. *)
Theorem flip_anchor (n : nat) (clock : nat → Z * Z) (delta : R) (page : Z)
        (opened bookClosed : bool) (p : PageObject) :
  turnedAt (update_frames (S n) clock delta page opened bookClosed p)
  = (if bool_decide (lastOpened p = opened) then turnedAt p else fst (clock 0%nat))
  ∧ lastOpened (update_frames (S n) clock delta page opened bookClosed p) = opened.
Proof.
  induction n as [|n [IHt IHl]].
  - simpl. rewrite update_turnedAt, update_lastOpened. split; [|done].
    destruct (lastOpened p), opened; done.
  - change (update_frames (S (S n)) clock delta page opened bookClosed p)
      with (update (fst (clock (S n))) (snd (clock (S n))) delta page opened bookClosed
                   (update_frames (S n) clock delta page opened bookClosed p)).
    rewrite update_turnedAt, update_lastOpened, IHl, IHt. split; [|done].
    by destruct opened.
Qed.

(** X21. Once 400ms have passed since a page's last flip, and while the
    book is not closed, the targets of its bones no longer depend on the
    time: the Y target of bone [i] is
    [(0.18 * insideCurve - 0.05 * outsideCurve) * targetRotation] and the X
    target is 0. *)
Theorem settled_targets (p : PageObject) (nowT now : Z) (delta : R) (page : Z)
        (opened : bool) (i : nat) (b : Bone) :
  lastOpened p = opened →
  turnedAt p + 400 ≤ now →
  bones p !! i = Some b →
  bones (update nowT now delta page opened false p) !! i
  = Some (easeBone delta
            ((INSIDE_CURVE_STRENGTH * insideCurveIntensity i
              - OUTSIDE_CURVE_STRENGTH * outsideCurveIntensity i)
             * targetRotation opened false (index p), 0)%R b).
Proof.
  intros Ho Ht Hb. rewrite (update_bones_lookup _ _ _ _ _ _ _ _ _ Hb).
  rewrite Ho. replace (negb (eqb opened opened)) with false by (by destruct opened).
  rewrite turningTime_settled by done.
  unfold boneTargets, curveRotationAngle, turningIntensity, foldIntensity. simpl.
  do 2 f_equal. f_equal; [lra|]. destruct (8 <? i)%nat; lra.
Qed.

Lemma settled_targets_witness :
  bones (update 500 500 1 1 false false (fresh_page 3)) !! 8%nat
  = Some (easeBone 1
            ((INSIDE_CURVE_STRENGTH * insideCurveIntensity 8
              - OUTSIDE_CURVE_STRENGTH * outsideCurveIntensity 8)
             * targetRotation false false 3, 0)%R (mkBone 0 0)).
Proof.
  exact (settled_targets (fresh_page 3) 500 500 1 1 false 8 (mkBone 0 0)
                         eq_refl ltac:(simpl; lia) eq_refl).
Defined.
